(** * Content ROI: last-touch attribution, lifetime value and roll-ups

    A shallow embedding of the analytics scripts of the repository
    ([attribution.py], [analysis_and_plots.py], [sensitivity_analysis.py])
    together with the properties stated about them.

    Modelling conventions.
    - A pandas [DataFrame] is a list of row records, in frame order.
    - A [datetime64[ns]] cell is [option Z]: nanoseconds since the epoch,
      [None] standing for [NaT].  The bounds of the 64-bit representation
      are not modelled.
    - A [float64] cell is a value of [Float]: an exact rational, a signed
      infinity or [NaN] (pandas' missing-value marker).  Rounding and the
      sign of zero are abstracted away; division follows IEEE 754 at zero.
    - A nullable object cell (a show id, a genre after a left join) is an
      [option string].
    - Identifier columns ([show_id], [user_id]) and the money columns of the
      two input files are taken to be non-null.
    - Arithmetic on [Float] is exact: the theorems state what the code's own
      operations give, and no identity that would need the operations to be
      re-associated or cancelled.
    - A [sort_values] on a list of keys is a stable (lexicographic) sort.  A
      [sort_values] on a single key uses pandas' default algorithm, which is
      not stable: it is a parameter of the development, a [SortKind], of
      which only the contract is known (the result is an ascending
      permutation of the rows). *)

From Stdlib Require Import ZArith QArith List String Bool Lia.
From Stdlib Require Import Permutation Sorted.
Import ListNotations.

Local Open Scope Z_scope.

(* ===================================================================== *)
(** ** Calendar arithmetic behind [Series.dt.year] and [Series.dt.month] *)
(* ===================================================================== *)

Module Calendar.

Definition NS_PER_DAY : Z := 86400000000000.

(** Proleptic Gregorian date of a day count since 1970-01-01. *)
Definition civil_from_days (z : Z) : Z * Z * Z :=
  let z := z + 719468 in
  let era := z / 146097 in
  let doe := z - era * 146097 in
  let yoe := (doe - doe / 1460 + doe / 36524 - doe / 146096) / 365 in
  let y := yoe + era * 400 in
  let doy := doe - (365 * yoe + yoe / 4 - yoe / 100) in
  let mp := (5 * doy + 2) / 153 in
  let d := doy - (153 * mp + 2) / 5 + 1 in
  let m := if mp <? 10 then mp + 3 else mp - 9 in
  (if m <=? 2 then y + 1 else y, m, d).

(** Day count since 1970-01-01 of a proleptic Gregorian date. *)
Definition days_from_civil (y m d : Z) : Z :=
  let y := if m <=? 2 then y - 1 else y in
  let era := y / 400 in
  let yoe := y - era * 400 in
  let doy := (153 * (if 2 <? m then m - 3 else m + 9) + 2) / 5 + d - 1 in
  let doe := yoe * 365 + yoe / 4 - yoe / 100 + doy in
  era * 146097 + doe - 719468.

Definition year_of (ns : Z) : Z :=
  let '(y, _, _) := civil_from_days (ns / NS_PER_DAY) in y.

Definition month_of (ns : Z) : Z :=
  let '(_, m, _) := civil_from_days (ns / NS_PER_DAY) in m.

End Calendar.

(** [datetime64[ns]] cells; [None] is [NaT]. *)
Definition Timestamp := option Z.

(** [pd.Timestamp('y-m-d')], as [parse_dates] reads a plain date. *)
Definition date (y m d : Z) : Timestamp :=
  Some (Calendar.days_from_civil y m d * Calendar.NS_PER_DAY).

(** [pd.Timedelta(days=n)] in nanoseconds. *)
Definition Timedelta_days (n : Z) : Z := n * Calendar.NS_PER_DAY.

Definition ts_add (t : Timestamp) (delta : Z) : Timestamp :=
  match t with
  | Some x => Some (x + delta)
  | None => None
  end.

(** Element-wise comparisons; any comparison with [NaT] is [False]. *)
Definition ts_le (a b : Timestamp) : bool :=
  match a, b with
  | Some x, Some y => x <=? y
  | _, _ => false
  end.

Definition ts_ge (a b : Timestamp) : bool := ts_le b a.

Definition ts_eqb (a b : Timestamp) : bool :=
  match a, b with
  | Some x, Some y => x =? y
  | None, None => true
  | _, _ => false
  end.

Definition isnat (t : Timestamp) : bool :=
  match t with
  | Some _ => false
  | None => true
  end.

(** The ascending order of a sort on a datetime column, [NaT] last. *)
Definition ts_sort_leb (a b : Timestamp) : bool :=
  match a, b with
  | Some x, Some y => x <=? y
  | _, None => true
  | None, Some _ => false
  end.

(* ===================================================================== *)
(** ** [float64] cells *)
(* ===================================================================== *)

Inductive Float : Type :=
| Fin (q : Q)
| PInf
| NInf
| NaN.

Definition Qsign (q : Q) : Z := Z.sgn (Qnum q).

Definition fneg (x : Float) : Float :=
  match x with
  | Fin q => Fin (- q)
  | PInf => NInf
  | NInf => PInf
  | NaN => NaN
  end.

Definition fadd (x y : Float) : Float :=
  match x, y with
  | NaN, _ | _, NaN => NaN
  | Fin a, Fin b => Fin (a + b)
  | PInf, NInf | NInf, PInf => NaN
  | PInf, _ | _, PInf => PInf
  | NInf, _ | _, NInf => NInf
  end.

Definition fsub (x y : Float) : Float := fadd x (fneg y).

(** IEEE 754 division: a nonzero number over zero is an infinity, zero over
    zero is [NaN]; nothing is raised. *)
Definition fdiv (x y : Float) : Float :=
  match x, y with
  | NaN, _ | _, NaN => NaN
  | Fin a, Fin b =>
      if Qeq_bool b 0 then
        match Qsign a with
        | Z0 => NaN
        | Zpos _ => PInf
        | Zneg _ => NInf
        end
      else Fin (a / b)
  | Fin _, (PInf | NInf) => Fin 0
  | (PInf | NInf), (PInf | NInf) => NaN
  | PInf, Fin b => if Z.ltb (Qsign b) 0 then NInf else PInf
  | NInf, Fin b => if Z.ltb (Qsign b) 0 then PInf else NInf
  end.

(** Equality of cells up to the representation of a rational. *)
Definition Feq (x y : Float) : Prop :=
  match x, y with
  | Fin a, Fin b => (a == b)%Q
  | PInf, PInf | NInf, NInf | NaN, NaN => True
  | _, _ => False
  end.

(** [pd.notnull] on a float cell. *)
Definition notnull (x : Float) : bool :=
  match x with
  | NaN => false
  | _ => true
  end.

(** [Series.sum()], which skips missing cells. *)
Definition fsum (xs : list Float) : Float :=
  fold_left fadd (filter notnull xs) (Fin 0).

Definition Qsum (xs : list Q) : Q := fold_left Qplus xs 0%Q.

Definition Zsum (xs : list Z) : Z := fold_left Z.add xs 0.

(** [Series.replace(0, np.nan)] on an integer column (which becomes float). *)
Definition replace_0_nan (n : Z) : Float :=
  if n =? 0 then NaN else Fin (inject_Z n).

(* ===================================================================== *)
(** ** The pandas operations the scripts use *)
(* ===================================================================== *)

Module Pandas.

Section Frames.
Context {A B K : Type}.

Fixpoint insert_sorted (key : A -> K) (kleb : K -> K -> bool)
         (x : A) (l : list A) : list A :=
  match l with
  | [] => [x]
  | y :: l' =>
      if kleb (key x) (key y) then x :: l
      else y :: insert_sorted key kleb x l'
  end.

(** A stable ascending sort: rows with equal keys keep their frame order.
    It is the sort of [sort_values] on a list of keys, and of the group
    keys of [groupby], which are distinct. *)
Fixpoint sort_values (key : A -> K) (kleb : K -> K -> bool)
         (l : list A) : list A :=
  match l with
  | [] => []
  | x :: l' => insert_sorted key kleb x (sort_values key kleb l')
  end.

Fixpoint last_opt (l : list A) : option A :=
  match l with
  | [] => None
  | [x] => Some x
  | _ :: l' => last_opt l'
  end.

(** [left.merge(right, left_on=lkey, right_on=rkey, how='left')]: every
    left row, in order, paired with each matching right row in order, or
    with a row of missing cells when nothing matches.  A null left key
    matches nothing, the right keys being non-null. *)
Definition merge_left (lkey : A -> option string) (rkey : B -> string)
           (left : list A) (right : list B) : list (A * option B) :=
  flat_map
    (fun a =>
       match filter (fun b => match lkey a with
                              | Some k => String.eqb k (rkey b)
                              | None => false
                              end) right with
       | [] => [(a, None)]
       | ms => map (fun b => (a, Some b)) ms
       end)
    left.

(** [left.merge(right, on='key')] with a constant key column: the cross
    product, left-major. *)
Definition merge_cross (left : list A) (right : list B) : list (A * B) :=
  flat_map (fun a => map (fun b => (a, b)) right) left.

End Frames.

(** The algorithm of a [sort_values] on a single key (pandas' default
    [kind='quicksort']): an ascending permutation of the rows, for any total
    and transitive order on the keys.  The order given to rows with equal
    keys is left open. *)
Class SortKind : Type := mkSortKind {
  argsort : forall {A K : Type}, (A -> K) -> (K -> K -> bool) -> list A -> list A;
  argsort_perm :
    forall (A K : Type) (key : A -> K) (kleb : K -> K -> bool) (l : list A),
      Permutation (argsort key kleb l) l;
  argsort_sorted :
    forall (A K : Type) (key : A -> K) (kleb : K -> K -> bool) (l : list A),
      (forall a b, kleb a b = false -> kleb b a = true) ->
      (forall a b c, kleb a b = true -> kleb b c = true -> kleb a c = true) ->
      StronglySorted (fun x y => kleb (key x) (key y) = true) (argsort key kleb l)
}.

(** [DataFrame.sort_values(key, ascending=...)] on a single key column: the
    rows with a key are sorted (for a descending sort they are reversed,
    sorted ascending and reversed again); the rows with a missing key come
    last, in frame order. *)
Definition sort_values_by {SK : SortKind} {A K : Type} (key : A -> K)
           (kleb : K -> K -> bool) (isna : K -> bool) (ascending : bool)
           (l : list A) : list A :=
  let non_nans := filter (fun x => negb (isna (key x))) l in
  let nans := filter (fun x => isna (key x)) l in
  (if ascending then argsort key kleb non_nans
   else rev (argsort key kleb (rev non_nans)))
  ++ nans.

Definition dropna {A : Type} (l : list (option A)) : list A :=
  flat_map (fun o => match o with Some x => [x] | None => [] end) l.

Definition key_is (k : string) (o : option string) : bool :=
  match o with
  | Some k' => String.eqb k k'
  | None => false
  end.

(** The group keys of [groupby(key)]: the distinct non-null keys, sorted
    ([sort=True], [dropna=True]). *)
Definition group_keys (keys : list (option string)) : list string :=
  sort_values (fun k => k) String.leb (nodup string_dec (dropna keys)).

(** [DataFrame.groupby(key)]: one group per key, each holding its rows in
    frame order. *)
Definition groupby {A : Type} (key : A -> option string) (rows : list A)
  : list (string * list A) :=
  map (fun k => (k, filter (fun r => key_is k (key r)) rows))
      (group_keys (map key rows)).

End Pandas.

Import Pandas.

(* ===================================================================== *)
(** ** The two input tables *)
(* ===================================================================== *)

(** A row of [netflix_content.csv]. *)
Record ContentRow : Type := mkContent {
  show_id : string;
  title : string;
  genre : string;
  release_date : Timestamp;
  production_cost : Q
}.

(** A row of the user ledger ([user_base.csv]).  Whether the frame has
    the [attributed_show_id] column at all is recorded with the frame
    object, see [Frame]. *)
Record UserRow : Type := mkUser {
  user_id : string;
  sign_up_date : Timestamp;
  last_active_date : Timestamp;
  monthly_revenue : Q;
  attributed_show_id : option string
}.

Definition set_attributed (u : UserRow) (a : option string) : UserRow :=
  {| user_id := user_id u;
     sign_up_date := sign_up_date u;
     last_active_date := last_active_date u;
     monthly_revenue := monthly_revenue u;
     attributed_show_id := a |}.

(* ===================================================================== *)
(** ** [attribution.py] *)
(* ===================================================================== *)

Module Attribution.

Definition WINDOW_DAYS : Z := 7.

(** [load_data]: both files are read with [pd.read_csv]; the parsed rows
    are returned as they are. *)
Definition load_data (content_csv : list ContentRow) (user_csv : list UserRow)
  : list ContentRow * list UserRow :=
  (content_csv, user_csv).

(** A row of [content_small]. *)
Record ContentSmall : Type := mkSmall {
  cs_show_id : string;
  cs_release_date : Timestamp;
  window_start : Timestamp;
  window_end : Timestamp
}.

(** [content[['show_id','release_date']].sort_values('release_date')]
    followed by the two window columns. *)
Definition content_small {SK : SortKind} (content : list ContentRow)
           (window_days : Z) : list ContentSmall :=
  map (fun c =>
         {| cs_show_id := show_id c;
            cs_release_date := release_date c;
            window_start := release_date c;
            window_end := ts_add (release_date c) (Timedelta_days window_days) |})
      (sort_values_by release_date ts_sort_leb isnat true content).

(** A row of [users_exp]: [users[['user_id','sign_up_date']]]. *)
Definition UserExp : Type := (string * Timestamp)%type.

Definition users_exp (users : list UserRow) : list UserExp :=
  map (fun u => (user_id u, sign_up_date u)) users.

Definition MergedRow : Type := (UserExp * ContentSmall)%type.

Definition m_user_id (r : MergedRow) : string := fst (fst r).
Definition m_sign_up_date (r : MergedRow) : Timestamp := snd (fst r).
Definition m_show_id (r : MergedRow) : string := cs_show_id (snd r).
Definition m_release_date (r : MergedRow) : Timestamp := cs_release_date (snd r).

(** [cond]: the sign-up lies in [[release_date, window_end]]. *)
Definition cond (r : MergedRow) : bool :=
  ts_ge (m_sign_up_date r) (m_release_date r)
  && ts_le (m_sign_up_date r) (window_end (snd r)).

(** [merged] after the filter. *)
Definition merged {SK : SortKind} (content : list ContentRow) (users : list UserRow)
           (window_days : Z) : list MergedRow :=
  filter cond (merge_cross (users_exp users) (content_small content window_days)).

(** [merged.sort_values(['user_id','release_date'])]: a lexicographic
    sort, that is a stable sort on the last key followed by a stable sort
    on the first. *)
Definition merged_sorted (m : list MergedRow) : list MergedRow :=
  sort_values m_user_id String.leb (sort_values m_release_date ts_sort_leb m).

(** [merged.groupby('user_id', as_index=False).last()[['user_id','show_id']]],
    renamed: one row per user id, holding the show of the group's last row. *)
Definition last_touch (m : list MergedRow) : list (string * option string) :=
  map (fun g => (fst g, last_opt (map m_show_id (snd g))))
      (groupby (fun r => Some (m_user_id r)) (merged_sorted m)).

(** The coalescing of lines 64-72 on one row of the left join: the new
    attribution when it is present, the existing one otherwise. *)
Definition coalesce (row : UserRow * option (string * option string)) : UserRow :=
  let '(u, lt) := row in
  let attributed_show_id_new :=
    match lt with
    | Some (_, a) => a
    | None => None
    end in
  set_attributed u
    (match attributed_show_id_new with
     | Some s => Some s
     | None => attributed_show_id u
     end).

(** The frame [assign_last_touch] returns. *)
Definition assign_last_touch {SK : SortKind} (content : list ContentRow)
           (users : list UserRow) (window_days : Z) : list UserRow :=
  let m := merged content users window_days in
  match m with
  | [] =>
      (* No matches *)
      map (fun u => set_attributed u None) users
  | _ =>
      map coalesce
          (merge_left (fun u => Some (user_id u)) fst users (last_touch m))
  end.

End Attribution.

Import Attribution.

(* ===================================================================== *)
(** ** DataFrame objects: a store of user frames *)
(* ===================================================================== *)

(** [assign_last_touch] assigns to columns of the frame it receives, and
    the sweep hands it [users.copy()].  Frames are therefore also modelled
    as objects: cells of a store, named by references.  A frame object
    records whether it has the [attributed_show_id] column. *)
Record Frame : Type := mkFrame {
  fr_rows : list UserRow;
  fr_has_attributed : bool
}.

(** The rows of a frame object; without the column every attribution is
    missing. *)
Definition frame_rows (f : Frame) : list UserRow :=
  if fr_has_attributed f then fr_rows f
  else map (fun u => set_attributed u None) (fr_rows f).

Module Store.

Definition ref : Type := nat.
Definition heap : Type := list Frame.

(** Computations over the store; [None] is a dangling reference. *)
Definition M (A : Type) : Type := heap -> option (A * heap).

Definition ret {A : Type} (x : A) : M A := fun h => Some (x, h).

Definition bind {A B : Type} (c : M A) (k : A -> M B) : M B :=
  fun h =>
    match c h with
    | Some (x, h') => k x h'
    | None => None
    end.

Fixpoint update (r : ref) (v : Frame) (h : heap) : heap :=
  match h, r with
  | [], _ => []
  | _ :: h', O => v :: h'
  | x :: h', S r' => x :: update r' v h'
  end.

Definition df_read (r : ref) : M Frame :=
  fun h =>
    match nth_error h r with
    | Some v => Some (v, h)
    | None => None
    end.

(** A new frame object. *)
Definition df_new (v : Frame) : M ref :=
  fun h => Some (List.length h, h ++ [v]).

(** In-place modification of a frame object. *)
Definition df_assign (r : ref) (v : Frame) : M unit :=
  fun h =>
    match nth_error h r with
    | Some _ => Some (tt, update r v h)
    | None => None
    end.

(** [DataFrame.copy()]. *)
Definition df_copy (r : ref) : M ref :=
  bind (df_read r) df_new.

Fixpoint mapM {A B : Type} (f : A -> M B) (l : list A) : M (list B) :=
  match l with
  | [] => ret []
  | x :: l' => bind (f x) (fun y => bind (mapM f l') (fun ys => ret (y :: ys)))
  end.

End Store.

Module StoreNotations.
Notation "x <- c ;; k" := (Store.bind c (fun x => k))
  (at level 61, c at next level, right associativity).
Notation "c ;;; k" := (Store.bind c (fun _ => k))
  (at level 61, right associativity).
End StoreNotations.

Import StoreNotations.

Module AttributionObj.

(** [assign_last_touch] on frame objects.  With no match at all the
    column of the argument itself is overwritten and the argument is
    returned.  Otherwise the column is first added to the argument, in
    place, when it is missing (lines 60-61); then [users.merge] builds a new
    frame, which is returned. *)
Definition assign_last_touch_obj {SK : SortKind} (content : list ContentRow)
           (users : Store.ref) (window_days : Z) : Store.M Store.ref :=
  frame <- Store.df_read users ;;
  let rows := frame_rows frame in
  match merged content rows window_days with
  | [] =>
      Store.df_assign users (mkFrame (map (fun u => set_attributed u None) rows) true) ;;;
      Store.ret users
  | m =>
      (if fr_has_attributed frame then Store.ret tt
       else Store.df_assign users (mkFrame rows true)) ;;;
      Store.df_new
        (mkFrame
           (map coalesce
                (merge_left (fun u => Some (user_id u)) fst rows (last_touch m)))
           true)
  end.

End AttributionObj.

Import AttributionObj.

(* ===================================================================== *)
(** ** [analysis_and_plots.py] *)
(* ===================================================================== *)

(** The month difference both scripts compute from the calendar fields;
    missing whenever a date is [NaT]. *)
Definition month_diff (u : UserRow) : option Z :=
  match last_active_date u, sign_up_date u with
  | Some b, Some a =>
      Some ((Calendar.year_of b - Calendar.year_of a) * 12
            + (Calendar.month_of b - Calendar.month_of a))
  | _, _ => None
  end.

Definition fillna (d : Z) (x : option Z) : Z :=
  match x with
  | Some v => v
  | None => d
  end.

(** A user row with the two derived columns. *)
Record LtvRow : Type := mkLtv {
  lr_user : UserRow;
  lifetime_months : Z;
  ltv : Q
}.

(** A row of [show_rev] before the join with the catalog. *)
Record ShowRev : Type := mkShowRev {
  sr_attributed_show_id : string;
  attributed_users : Z;
  total_revenue : Q
}.

(** A row of [genre_fin]. *)
Record GenreFin : Type := mkGenreFin {
  gf_genre : string;
  gf_total_revenue : Q;
  total_prod_cost : Float;
  total_attributed_users : Z;
  cac_per_user : Float;
  ltv_per_user : Float;
  ltv_to_cac : Float
}.

(** Columns a left join brings from the catalog; missing without a match. *)
Definition joined_genre (c : option ContentRow) : option string :=
  match c with
  | Some c => Some (genre c)
  | None => None
  end.


Definition joined_cost (c : option ContentRow) : Float :=
  match c with
  | Some c => Fin (production_cost c)
  | None => NaN
  end.

Module AnalysisAndPlots.

Definition compute_ltv (users : list UserRow) : list LtvRow :=
  map (fun u =>
         let diff := fillna 0 (month_diff u) in
         let lifetime_months := Z.max 1 diff in
         {| lr_user := u;
            lifetime_months := lifetime_months;
            ltv := (monthly_revenue u * inject_Z lifetime_months)%Q |})
      users.

(** [users.merge(content[['show_id','genre','production_cost']],
    left_on='attributed_show_id', right_on='show_id', how='left')]. *)
Definition enriched (users : list LtvRow) (content : list ContentRow)
  : list (LtvRow * option ContentRow) :=
  merge_left (fun r => attributed_show_id (lr_user r)) show_id users content.

(** [enriched.groupby('attributed_show_id').agg(...)]: the count of user
    ids and the sum of [ltv] per attributed show. *)
Definition show_rev_groups (e : list (LtvRow * option ContentRow)) : list ShowRev :=
  map (fun g =>
         {| sr_attributed_show_id := fst g;
            attributed_users := Z.of_nat (List.length (snd g));
            total_revenue := Qsum (map (fun r => ltv (fst r)) (snd g)) |})
      (groupby (fun r => attributed_show_id (lr_user (fst r))) e).

(** A row of [show_rev] after the join with the catalog, with [roi]. *)
Record ShowFin : Type := mkShowFin {
  sf_rev : ShowRev;
  sf_content : option ContentRow;
  roi : Float
}.

Definition sf_production_cost (r : ShowFin) : Float := joined_cost (sf_content r).

(** [show_rev] as [main] builds it: grouped, joined to the catalog with
    [how='left'], and the [roi] column added. *)
Definition show_rev (users : list LtvRow) (content : list ContentRow)
  : list ShowFin :=
  map (fun r =>
         let total_revenue := Fin (total_revenue (fst r)) in
         let production_cost := joined_cost (snd r) in
         {| sf_rev := fst r;
            sf_content := snd r;
            roi := fdiv (fsub total_revenue production_cost) production_cost |})
      (merge_left (fun r => Some (sr_attributed_show_id r)) show_id
                  (show_rev_groups (enriched users content)) content).

(** [genre_fin]: [show_rev] grouped by genre, with the three ratios. *)
Definition genre_fin (sr : list ShowFin) : list GenreFin :=
  map (fun g =>
         let total_revenue := Qsum (map (fun r => total_revenue (sf_rev r)) (snd g)) in
         let total_prod_cost := fsum (map sf_production_cost (snd g)) in
         let total_attributed_users :=
           Zsum (map (fun r => attributed_users (sf_rev r)) (snd g)) in
         let cac_per_user := fdiv total_prod_cost (replace_0_nan total_attributed_users) in
         let ltv_per_user :=
           fdiv (Fin total_revenue) (replace_0_nan total_attributed_users) in
         {| gf_genre := fst g;
            gf_total_revenue := total_revenue;
            total_prod_cost := total_prod_cost;
            total_attributed_users := total_attributed_users;
            cac_per_user := cac_per_user;
            ltv_per_user := ltv_per_user;
            ltv_to_cac := fdiv ltv_per_user cac_per_user |})
      (groupby (fun r => joined_genre (sf_content r)) sr).

(** The show-level and genre-level tables [main] computes from the two
    files it reads; the per-genre LTV summary, the printing and the charts
    are left out. *)
Definition main (content : list ContentRow) (users : list UserRow)
  : list ShowFin * list GenreFin :=
  let users := compute_ltv users in
  let show_rev := show_rev users content in
  (show_rev, genre_fin show_rev).

End AnalysisAndPlots.

Import AnalysisAndPlots.

(* ===================================================================== *)
(** ** [sensitivity_analysis.py] *)
(* ===================================================================== *)

Module SensitivityAnalysis.

Definition compute_genre_metrics (users : list UserRow) (content : list ContentRow)
  : list GenreFin :=
  let users :=
    map (fun u =>
           let diff := fillna 0 (month_diff u) in
           let lifetime_months := Z.max 1 diff in
           {| lr_user := u;
              lifetime_months := lifetime_months;
              ltv := (monthly_revenue u * inject_Z lifetime_months)%Q |})
        users in
  let enriched :=
    merge_left (fun r => attributed_show_id (lr_user r)) show_id users content in
  let show_rev :=
    map (fun g =>
           {| sr_attributed_show_id := fst g;
              attributed_users := Z.of_nat (List.length (snd g));
              total_revenue := Qsum (map (fun r => ltv (fst r)) (snd g)) |})
        (groupby (fun r => attributed_show_id (lr_user (fst r))) enriched) in
  let show_rev :=
    merge_left (fun r => Some (sr_attributed_show_id r)) show_id show_rev content in
  map (fun g =>
         let total_revenue := Qsum (map (fun r => total_revenue (fst r)) (snd g)) in
         let total_prod_cost := fsum (map (fun r => joined_cost (snd r)) (snd g)) in
         let total_attributed_users :=
           Zsum (map (fun r => attributed_users (fst r)) (snd g)) in
         let cac_per_user := fdiv total_prod_cost (replace_0_nan total_attributed_users) in
         let ltv_per_user :=
           fdiv (Fin total_revenue) (replace_0_nan total_attributed_users) in
         {| gf_genre := fst g;
            gf_total_revenue := total_revenue;
            total_prod_cost := total_prod_cost;
            total_attributed_users := total_attributed_users;
            cac_per_user := cac_per_user;
            ltv_per_user := ltv_per_user;
            ltv_to_cac := fdiv ltv_per_user cac_per_user |})
      (groupby (fun r => joined_genre (snd r)) show_rev).

(** A row of the sweep table. *)
Record SweepRow : Type := mkSweep {
  window : Z;
  sw_genre : string;
  sw_ltv_to_cac : Float
}.

(** The inner loop of [main]: one row per genre of interest. *)
Definition genre_rows (w : Z) (genre_fin : list GenreFin) : list SweepRow :=
  map (fun g =>
         match filter (fun r => String.eqb (gf_genre r) g) genre_fin with
         | [] => {| window := w; sw_genre := g; sw_ltv_to_cac := NaN |}
         | val :: _ => {| window := w; sw_genre := g; sw_ltv_to_cac := ltv_to_cac val |}
         end)
      ["Sci-Fi"%string; "Comedy"%string].

(** The loop of [main] over a list of windows, on the frame object
    [users]: each turn attributes a fresh copy of it. *)
Definition sweep {SK : SortKind} (content : list ContentRow) (users : Store.ref)
           (windows : list Z) : Store.M (list SweepRow) :=
  rows <- Store.mapM
            (fun w =>
               copy <- Store.df_copy users ;;
               attributed <- assign_last_touch_obj content copy w ;;
               frame <- Store.df_read attributed ;;
               Store.ret (genre_rows w (compute_genre_metrics (frame_rows frame) content)))
            windows ;;
  Store.ret (List.concat rows).

Definition windows : list Z := [3; 7; 14].

(** [main]: the rows handed to the plot. *)
Definition main {SK : SortKind} (content : list ContentRow) (users : Store.ref)
  : Store.M (list SweepRow) :=
  sweep content users windows.

End SensitivityAnalysis.

Import SensitivityAnalysis.

(* ===================================================================== *)
(** ** Facts about the frame operations *)
(* ===================================================================== *)

Section SortFacts.
Context {A K : Type}.
Variable key : A -> K.
Variable kleb : K -> K -> bool.

Lemma insert_sorted_perm (x : A) (l : list A) :
  Permutation (insert_sorted key kleb x l) (x :: l).
Proof.
  induction l as [|y l IH]; simpl.
  - apply Permutation_refl.
  - destruct (kleb (key x) (key y)).
    + apply Permutation_refl.
    + eapply perm_trans; [apply perm_skip, IH | apply perm_swap].
Qed.

Lemma sort_values_perm (l : list A) :
  Permutation (sort_values key kleb l) l.
Proof.
  induction l as [|x l IH]; simpl.
  - constructor.
  - eapply perm_trans; [apply insert_sorted_perm | apply perm_skip, IH].
Qed.

Lemma sort_values_In (l : list A) (x : A) :
  In x (sort_values key kleb l) <-> In x l.
Proof.
  split; apply Permutation_in;
    [apply sort_values_perm | apply Permutation_sym, sort_values_perm].
Qed.

Lemma sort_values_nil (l : list A) :
  sort_values key kleb l = [] -> l = [].
Proof.
  intros H. apply Permutation_nil.
  rewrite <- H. apply sort_values_perm.
Qed.

(** Stability: rows of one key class keep their frame order. *)
Section Stable.
Variable p : A -> bool.
Hypothesis p_class :
  forall x y, p x = true -> p y = true -> kleb (key x) (key y) = true.

Lemma insert_sorted_filter (x : A) (l : list A) :
  filter p (insert_sorted key kleb x l) = filter p (x :: l).
Proof.
  induction l as [|y l IH]; simpl; [reflexivity|].
  destruct (kleb (key x) (key y)) eqn:E; simpl; [reflexivity|].
  simpl in IH. rewrite IH.
  destruct (p x) eqn:Px, (p y) eqn:Py; try reflexivity.
  rewrite (p_class x y Px Py) in E. discriminate.
Qed.

Lemma sort_values_stable (l : list A) :
  filter p (sort_values key kleb l) = filter p l.
Proof.
  induction l as [|x l IH]; simpl; [reflexivity|].
  rewrite insert_sorted_filter. simpl. now rewrite IH.
Qed.
End Stable.

(** Sortedness, for a total and transitive key order. *)
Section Sorted.
Hypothesis kleb_total : forall a b, kleb a b = false -> kleb b a = true.
Hypothesis kleb_trans :
  forall a b c, kleb a b = true -> kleb b c = true -> kleb a c = true.

Definition key_le (x y : A) : Prop := kleb (key x) (key y) = true.

Lemma insert_sorted_sorted (x : A) (l : list A) :
  StronglySorted key_le l -> StronglySorted key_le (insert_sorted key kleb x l).
Proof.
  induction l as [|y l IH]; simpl; intros Hs.
  - repeat constructor.
  - inversion Hs as [|? ? Hl Hy]; subst.
    destruct (kleb (key x) (key y)) eqn:E.
    + constructor; [assumption|].
      constructor; [exact E|].
      eapply Forall_impl; [|exact Hy].
      intros z Hz. unfold key_le in *. eauto.
    + constructor; [now apply IH|].
      apply Forall_forall. intros z Hz.
      apply (Permutation_in _ (insert_sorted_perm x l)) in Hz.
      destruct Hz as [<-|Hz].
      * now apply kleb_total.
      * rewrite Forall_forall in Hy. now apply Hy.
Qed.

Lemma sort_values_sorted (l : list A) :
  StronglySorted key_le (sort_values key kleb l).
Proof.
  induction l as [|x l IH]; simpl.
  - constructor.
  - now apply insert_sorted_sorted.
Qed.
End Sorted.

End SortFacts.

Section ListFacts.
Context {A : Type}.

Lemma last_opt_cons (x : A) (l : list A) :
  l <> [] -> last_opt (x :: l) = last_opt l.
Proof. destruct l; [congruence | reflexivity]. Qed.

Lemma last_opt_None (l : list A) : last_opt l = None <-> l = [].
Proof.
  induction l as [|x l IH]; [tauto|].
  destruct l as [|y l]; [split; discriminate|].
  rewrite last_opt_cons by discriminate.
  rewrite IH. split; discriminate.
Qed.

Lemma last_opt_In (l : list A) (x : A) : last_opt l = Some x -> In x l.
Proof.
  induction l as [|y l IH]; [discriminate|].
  destruct l as [|z l]; simpl.
  - intros [= ->]. now left.
  - intros H. right. now apply IH.
Qed.

Lemma last_opt_map {B : Type} (f : A -> B) (l : list A) :
  last_opt (map f l) = option_map f (last_opt l).
Proof.
  induction l as [|x l IH]; [reflexivity|].
  destruct l as [|y l]; [reflexivity|].
  change (map f (x :: y :: l)) with (f x :: map f (y :: l)).
  rewrite !last_opt_cons by (simpl; discriminate). exact IH.
Qed.

(** The last row survives a filter it passes. *)
Lemma last_opt_filter (p : A -> bool) (l : list A) (x : A) :
  last_opt l = Some x -> p x = true -> last_opt (filter p l) = Some x.
Proof.
  induction l as [|y l IH]; [discriminate|].
  destruct l as [|z l].
  - simpl. intros [= ->] ->. reflexivity.
  - intros Hl Px. rewrite last_opt_cons in Hl by discriminate.
    specialize (IH Hl Px).
    change (filter p (y :: z :: l))
      with (if p y then y :: filter p (z :: l) else filter p (z :: l)).
    destruct (p y); [|exact IH].
    rewrite last_opt_cons; [exact IH|].
    intros E. rewrite E in IH. discriminate.
Qed.

(** In a sorted frame every row is below the last one. *)
Lemma last_opt_sorted (R : A -> A -> Prop) (l : list A) (x y : A) :
  StronglySorted R l -> last_opt l = Some x -> In y l -> y = x \/ R y x.
Proof.
  induction 1 as [|z l Hs IH Hz]; [discriminate|].
  destruct l as [|z' l].
  - simpl. intros [= ->] [->|[]]. now left.
  - rewrite last_opt_cons by discriminate. intros Hl [->|Hy].
    + right. rewrite Forall_forall in Hz. apply Hz. now apply last_opt_In.
    + now apply IH.
Qed.

Lemma StronglySorted_filter (R : A -> A -> Prop) (p : A -> bool) (l : list A) :
  StronglySorted R l -> StronglySorted R (filter p l).
Proof.
  induction 1 as [|x l Hs IH Hx]; simpl; [constructor|].
  destruct (p x); [|exact IH].
  constructor; [exact IH|].
  apply Forall_forall. intros y Hy. apply filter_In in Hy.
  rewrite Forall_forall in Hx. now apply Hx.
Qed.

Lemma filter_filter (p q : A -> bool) (l : list A) :
  filter p (filter q l) = filter (fun x => q x && p x) l.
Proof.
  induction l as [|x l IH]; simpl; [reflexivity|].
  destruct (q x); simpl; [destruct (p x)|]; now rewrite IH.
Qed.

Lemma filter_nil_iff (p : A -> bool) (l : list A) :
  filter p l = [] <-> forall x, In x l -> p x = false.
Proof.
  induction l as [|x l IH]; simpl.
  - split; [intros _ ? []|reflexivity].
  - destruct (p x) eqn:E; split.
    + discriminate.
    + intros H. rewrite (H x) in E by now left. discriminate.
    + intros H y [<-|Hy]; [exact E|]. now apply IH.
    + intros H. apply IH. intros y Hy. apply H. now right.
Qed.

End ListFacts.

Lemma String_leb_refl (k : string) : String.leb k k = true.
Proof. destruct (String.leb_total k k); assumption. Qed.

Lemma ts_sort_leb_total (a b : Timestamp) :
  ts_sort_leb a b = false -> ts_sort_leb b a = true.
Proof.
  destruct a as [x|], b as [y|]; simpl; try congruence.
  rewrite Z.leb_gt, Z.leb_le. lia.
Qed.

Lemma ts_sort_leb_trans (a b c : Timestamp) :
  ts_sort_leb a b = true -> ts_sort_leb b c = true -> ts_sort_leb a c = true.
Proof.
  destruct a as [x|], b as [y|], c as [z|]; simpl; try congruence.
  rewrite !Z.leb_le. lia.
Qed.

Lemma ts_eqb_eq (a b : Timestamp) : ts_eqb a b = true <-> a = b.
Proof.
  destruct a as [x|], b as [y|]; simpl; try (split; congruence).
  rewrite Z.eqb_eq. split; congruence.
Qed.

Section GroupFacts.

Lemma In_dropna {A : Type} (l : list (option A)) (x : A) :
  In x (dropna l) <-> In (Some x) l.
Proof.
  unfold dropna. rewrite in_flat_map. split.
  - intros [[y|] [Hy Hx]]; simpl in Hx; [|contradiction].
    destruct Hx as [<-|[]]. exact Hy.
  - intros H. exists (Some x). split; [exact H | now left].
Qed.

Lemma group_keys_In (keys : list (option string)) (k : string) :
  In k (group_keys keys) <-> In (Some k) keys.
Proof.
  unfold group_keys. now rewrite sort_values_In, nodup_In, In_dropna.
Qed.

Lemma group_keys_NoDup (keys : list (option string)) : NoDup (group_keys keys).
Proof.
  unfold group_keys.
  eapply Permutation_NoDup;
    [apply Permutation_sym, sort_values_perm | apply NoDup_nodup].
Qed.

(** Looking a key up in a keyed table with distinct keys. *)
Lemma lookup_keyed {B : Type} (f : string -> B) (ks : list string) (k : string) :
  NoDup ks ->
  filter (fun b => String.eqb k (fst b)) (map (fun k' => (k', f k')) ks)
  = if in_dec string_dec k ks then [(k, f k)] else [].
Proof.
  induction 1 as [|k0 ks Hk0 Hnd IH]; simpl; [reflexivity|].
  destruct (String.eqb_spec k k0) as [->|Hne].
  - rewrite IH. destruct (string_dec k0 k0) as [E|E]; [|congruence].
    destruct (in_dec string_dec k0 ks); [contradiction | reflexivity].
  - rewrite IH. destruct (string_dec k0 k) as [E|E]; [congruence|].
    destruct (in_dec string_dec k ks); reflexivity.
Qed.

Lemma flat_map_singleton {A B : Type} (g : A -> list B) (h : A -> B) (l : list A) :
  (forall x, In x l -> g x = [h x]) -> flat_map g l = map h l.
Proof.
  induction l as [|x l IH]; simpl; intros H; [reflexivity|].
  rewrite (H x) by now left. simpl. f_equal.
  apply IH. intros y Hy. apply H. now right.
Qed.

End GroupFacts.

(* ===================================================================== *)
(** ** Sort kinds *)
(* ===================================================================== *)

(** The stable sort is one admissible algorithm. *)
Definition stable_kind : SortKind :=
  {| argsort := fun A K => @sort_values A K;
     argsort_perm := fun A K => @sort_values_perm A K;
     argsort_sorted := fun A K key kleb l Ht Htr =>
                         @sort_values_sorted A K key kleb Ht Htr l |}.

(** So is the stable sort of the reversed frame, which gives rows with
    equal keys the opposite order. *)
Lemma sort_rev_perm {A K : Type} (key : A -> K) (kleb : K -> K -> bool) (l : list A) :
  Permutation (sort_values key kleb (rev l)) l.
Proof.
  eapply perm_trans; [apply sort_values_perm|].
  apply Permutation_sym, Permutation_rev.
Qed.

Definition reversing_kind : SortKind :=
  {| argsort := fun A K key kleb l => sort_values key kleb (rev l);
     argsort_perm := fun A K => @sort_rev_perm A K;
     argsort_sorted := fun A K key kleb l Ht Htr =>
                         @sort_values_sorted A K key kleb Ht Htr (rev l) |}.

Section SortKindFacts.
Context {SK : SortKind}.
Context {A K : Type}.
Variable key : A -> K.
Variable kleb : K -> K -> bool.
Variable isna : K -> bool.

Lemma filter_split_perm (q : A -> bool) (l : list A) :
  Permutation (filter (fun x => negb (q x)) l ++ filter q l) l.
Proof.
  induction l as [|x l IH]; simpl; [constructor|].
  destruct (q x); simpl.
  - eapply perm_trans; [apply Permutation_sym, Permutation_middle|].
    now constructor.
  - now constructor.
Qed.

Lemma sort_values_by_perm (ascending : bool) (l : list A) :
  Permutation (sort_values_by key kleb isna ascending l) l.
Proof.
  unfold sort_values_by.
  eapply perm_trans; [|apply (filter_split_perm (fun x => isna (key x)))].
  apply Permutation_app_tail. destruct ascending.
  - apply argsort_perm.
  - eapply perm_trans; [apply Permutation_sym, Permutation_rev|].
    eapply perm_trans; [apply argsort_perm|].
    apply Permutation_sym, Permutation_rev.
Qed.

Lemma sort_values_by_In (ascending : bool) (l : list A) (x : A) :
  In x (sort_values_by key kleb isna ascending l) <-> In x l.
Proof.
  split; apply Permutation_in;
    [apply sort_values_by_perm | apply Permutation_sym, sort_values_by_perm].
Qed.

Lemma argsort_short (l : list A) :
  (List.length l <= 1)%nat -> argsort key kleb l = l.
Proof.
  intros H. assert (Hp := argsort_perm A K key kleb l).
  destruct l as [|x [|y l]]; simpl in H; try lia.
  - now apply Permutation_nil, Permutation_sym.
  - now apply Permutation_length_1_inv, Permutation_sym.
Qed.

(** A frame of one row is already sorted. *)
Lemma sort_values_by_single (ascending : bool) (x : A) :
  sort_values_by key kleb isna ascending [x] = [x].
Proof.
  unfold sort_values_by. simpl.
  destruct (isna (key x)), ascending; simpl;
    rewrite ?argsort_short by (simpl; lia); reflexivity.
Qed.

End SortKindFacts.

(* ===================================================================== *)
(** ** What [assign_last_touch] returns, row by row *)
(* ===================================================================== *)

(** The rows of a user id in a merged frame. *)
Definition of_user (uid : string) (r : MergedRow) : bool :=
  String.eqb uid (m_user_id r).

(** The show [last_touch] holds for a user id, if any. *)
Definition new_attribution (m : list MergedRow) (uid : string) : option string :=
  last_opt (map m_show_id
                (filter (of_user uid) (sort_values m_release_date ts_sort_leb m))).

Lemma merged_sorted_of_user (m : list MergedRow) (uid : string) :
  filter (of_user uid) (merged_sorted m)
  = filter (of_user uid) (sort_values m_release_date ts_sort_leb m).
Proof.
  unfold merged_sorted. apply sort_values_stable.
  intros x y Hx Hy. unfold of_user in *.
  apply String.eqb_eq in Hx, Hy. rewrite <- Hx, <- Hy.
  apply String_leb_refl.
Qed.

Lemma last_touch_lookup (m : list MergedRow) (uid : string) :
  filter (fun b => String.eqb uid (fst b)) (last_touch m)
  = match filter (of_user uid) m with
    | [] => []
    | _ => [(uid, new_attribution m uid)]
    end.
Proof.
  unfold last_touch, groupby. rewrite map_map. simpl.
  rewrite (lookup_keyed
             (fun k => last_opt (map m_show_id
                         (filter (fun r => key_is k (Some (m_user_id r)))
                                 (merged_sorted m))))).
  2: apply group_keys_NoDup.
  change (fun r : MergedRow => key_is uid (Some (m_user_id r))) with (of_user uid).
  rewrite merged_sorted_of_user. fold (new_attribution m uid).
  destruct (in_dec _ _ _) as [Hin|Hnin].
  - apply group_keys_In, in_map_iff in Hin.
    destruct Hin as [r [Hr Hin]]. injection Hr as Hr.
    unfold merged_sorted in Hin. rewrite !sort_values_In in Hin.
    destruct (filter (of_user uid) m) eqn:E; [|reflexivity].
    rewrite filter_nil_iff in E. specialize (E r Hin).
    unfold of_user in E. rewrite Hr, String.eqb_refl in E. discriminate.
  - destruct (filter (of_user uid) m) as [|r l] eqn:E; [reflexivity|].
    exfalso. apply Hnin. apply group_keys_In, in_map_iff.
    assert (Hr : In r (filter (of_user uid) m)) by (rewrite E; now left).
    apply filter_In in Hr. destruct Hr as [Hr Hu].
    exists r. split.
    + unfold of_user in Hu. apply String.eqb_eq in Hu. now rewrite Hu.
    + unfold merged_sorted. now rewrite !sort_values_In.
Qed.

Lemma new_attribution_None (m : list MergedRow) (uid : string) :
  new_attribution m uid = None <-> filter (of_user uid) m = [].
Proof.
  unfold new_attribution. rewrite last_opt_None. split.
  - intros H. apply map_eq_nil in H. rewrite filter_nil_iff in *.
    intros x Hx. apply H. now apply sort_values_In.
  - intros H. rewrite filter_nil_iff in H.
    replace (filter _ _) with (@nil MergedRow); [reflexivity|].
    symmetry. apply filter_nil_iff. intros x Hx. apply H.
    now apply sort_values_In in Hx.
Qed.

(** The attribution a user row leaves with when some row matched. *)
Definition resolved (m : list MergedRow) (u : UserRow) : UserRow :=
  set_attributed u
    (match new_attribution m (user_id u) with
     | Some s => Some s
     | None => attributed_show_id u
     end).

Lemma coalesced_rows (m : list MergedRow) (users : list UserRow) :
  map coalesce (merge_left (fun u => Some (user_id u)) fst users (last_touch m))
  = map (resolved m) users.
Proof.
  unfold merge_left.
  rewrite (flat_map_singleton _ (fun u =>
             (u, match filter (of_user (user_id u)) m with
                 | [] => None
                 | _ => Some (user_id u, new_attribution m (user_id u))
                 end))).
  - rewrite map_map. apply map_ext. intros u. unfold coalesce, resolved.
    destruct (filter (of_user (user_id u)) m) eqn:E; [|reflexivity].
    apply new_attribution_None in E. now rewrite E.
  - intros u _. rewrite last_touch_lookup.
    destruct (filter (of_user (user_id u)) m); reflexivity.
Qed.

Lemma assign_last_touch_rows {SK : SortKind} (content : list ContentRow)
      (users : list UserRow) (w : Z) :
  assign_last_touch content users w
  = match merged content users w with
    | [] => map (fun u => set_attributed u None) users
    | m => map (resolved m) users
    end.
Proof.
  unfold assign_last_touch.
  destruct (merged content users w) as [|r0 m0] eqn:Em; [reflexivity|].
  apply coalesced_rows.
Qed.

(* ===================================================================== *)
(** ** Eligibility and the rows of one user *)
(* ===================================================================== *)

(** A content item is eligible for a user when
    [release_date <= sign_up_date <= release_date + window]. *)
Definition eligible (w : Z) (u : UserRow) (c : ContentRow) : bool :=
  ts_ge (sign_up_date u) (release_date c)
  && ts_le (sign_up_date u) (ts_add (release_date c) (Timedelta_days w)).

Definition ts_lt (a b : Timestamp) : bool :=
  match a, b with
  | Some x, Some y => x <? y
  | _, _ => false
  end.

Definition small_of (w : Z) (c : ContentRow) : ContentSmall :=
  {| cs_show_id := show_id c;
     cs_release_date := release_date c;
     window_start := release_date c;
     window_end := ts_add (release_date c) (Timedelta_days w) |}.

Definition uexp (u : UserRow) : UserExp := (user_id u, sign_up_date u).

Definition row_of (w : Z) (u : UserRow) (c : ContentRow) : MergedRow :=
  (uexp u, small_of w c).

(** The catalog in the order the sort of line 28 gives it. *)
Definition sorted_catalog {SK : SortKind} (content : list ContentRow)
  : list ContentRow :=
  sort_values_by release_date ts_sort_leb isnat true content.

(** The filtered cross product of the ledger with a catalog in a given
    order. *)
Definition merged_of (cs : list ContentRow) (users : list UserRow) (w : Z)
  : list MergedRow :=
  filter cond (merge_cross (users_exp users) (map (small_of w) cs)).

Lemma merged_eq {SK : SortKind} (content : list ContentRow) (users : list UserRow)
      (w : Z) :
  merged content users w = merged_of (sorted_catalog content) users w.
Proof. reflexivity. Qed.

Lemma sorted_catalog_In {SK : SortKind} (content : list ContentRow) (c : ContentRow) :
  In c (sorted_catalog content) <-> In c content.
Proof. apply sort_values_by_In. Qed.

Lemma sorted_catalog_perm {SK : SortKind} (content : list ContentRow) :
  Permutation (sorted_catalog content) content.
Proof. apply sort_values_by_perm. Qed.

Lemma cond_eligible (w : Z) (u : UserRow) (c : ContentRow) :
  cond (row_of w u c) = eligible w u c.
Proof. reflexivity. Qed.

Lemma filter_merge_cross {A B : Type} (P : A * B -> bool) (L : list A) (cs : list B) :
  filter P (merge_cross L cs)
  = flat_map (fun a => map (pair a) (filter (fun c => P (a, c)) cs)) L.
Proof.
  unfold merge_cross.
  induction L as [|a L IH]; simpl; [reflexivity|].
  rewrite filter_app, IH. f_equal. apply filter_map_swap.
Qed.

Lemma merge_cross_In {A B : Type} (L : list A) (cs : list B) (x : A * B) :
  In x (merge_cross L cs) <-> In (fst x) L /\ In (snd x) cs.
Proof.
  unfold merge_cross. rewrite in_flat_map. destruct x as [a b]. simpl. split.
  - intros [a' [Ha Hb]]. apply in_map_iff in Hb.
    destruct Hb as [b' [[= <- <-] Hb]]. now split.
  - intros [Ha Hb]. exists a. split; [exact Ha|]. now apply in_map.
Qed.

Lemma merged_of_In (cs : list ContentRow) (users : list UserRow) (w : Z)
      (r : MergedRow) :
  In r (merged_of cs users w)
  <-> exists u c, In u users /\ In c cs /\ eligible w u c = true
                  /\ r = row_of w u c.
Proof.
  unfold merged_of, users_exp, MergedRow.
  rewrite filter_In, merge_cross_In, !in_map_iff. split.
  - intros [[[u [Hu Hin]] [c [Hc Hcin]]] Hcond].
    exists u, c. repeat split; try assumption.
    + rewrite <- cond_eligible. unfold row_of, uexp.
      rewrite Hu, Hc. now destruct r.
    + unfold row_of, uexp. rewrite Hu, Hc. now destruct r.
  - intros [u [c [Hu [Hc [He ->]]]]]. repeat split.
    + exists u. now split.
    + exists c. now split.
    + now rewrite cond_eligible.
Qed.

Lemma merged_In {SK : SortKind} (content : list ContentRow) (users : list UserRow)
      (w : Z) (r : MergedRow) :
  In r (merged content users w)
  <-> exists u c, In u users /\ In c content /\ eligible w u c = true
                  /\ r = row_of w u c.
Proof.
  rewrite merged_eq, merged_of_In. split;
    intros [u [c [Hu [Hc H]]]]; exists u, c; (split; [exact Hu|]);
    (split; [|exact H]);
    [apply (proj1 (sorted_catalog_In _ _)) | apply (proj2 (sorted_catalog_In _ _))];
    exact Hc.
Qed.

Lemma merged_nonempty {SK : SortKind} (content : list ContentRow)
      (users : list UserRow) (w : Z) (u : UserRow) (c : ContentRow) :
  In u users -> In c content -> eligible w u c = true ->
  merged content users w <> [].
Proof.
  intros Hu Hc He E.
  assert (H : In (row_of w u c) (merged content users w))
    by (apply merged_In; now exists u, c).
  rewrite E in H. exact H.
Qed.

(** With distinct user ids, the rows of one user in a filtered cross
    product are that user paired with the content rows that pass. *)
Lemma user_rows (users : list UserRow) (cs : list ContentSmall) (u : UserRow)
      (q : MergedRow -> bool) :
  NoDup (map user_id users) -> In u users ->
  filter (fun x => of_user (user_id u) x && q x) (merge_cross (users_exp users) cs)
  = map (pair (uexp u)) (filter (fun c => q (uexp u, c)) cs).
Proof.
  intros Hnd Hu.
  etransitivity; [apply filter_merge_cross|].
  induction users as [|u0 us IH]; [contradiction|].
  simpl in Hnd. apply NoDup_cons_iff in Hnd. destruct Hnd as [Hn0 Hnd].
  assert (Hoff : forall us', ~ In (user_id u) (map user_id us') ->
            flat_map (fun a => map (pair a)
                        (filter (fun c => of_user (user_id u) (a, c) && q (a, c)) cs))
                     (users_exp us') = []).
  { induction us' as [|u' us' IH']; simpl; intros Hn; [reflexivity|].
    rewrite IH' by tauto.
    unfold of_user, m_user_id. simpl.
    destruct (String.eqb_spec (user_id u) (user_id u')) as [E|_].
    - exfalso. apply Hn. now left.
    - simpl. rewrite app_nil_r.
      replace (filter _ cs) with (@nil ContentSmall); [reflexivity|].
      symmetry. now apply filter_nil_iff. }
  simpl. destruct Hu as [->|Hu].
  - rewrite (Hoff us Hn0), app_nil_r. f_equal.
    apply filter_ext. intros c. unfold of_user, m_user_id, uexp. simpl.
    now rewrite String.eqb_refl.
  - rewrite (IH Hnd Hu).
    assert (Hne : user_id u <> user_id u0).
    { intros E. apply Hn0. rewrite <- E. now apply in_map. }
    replace (filter _ cs) with (@nil ContentSmall); [reflexivity|].
    symmetry. apply filter_nil_iff. intros c _.
    unfold of_user, m_user_id. simpl.
    now destruct (String.eqb_spec (user_id u) (user_id u0)).
Qed.

(** The eligible items of a user with the latest release date, in the
    order of the list of items. *)
Definition latest_eligible (w : Z) (u : UserRow) (content : list ContentRow)
  : list ContentRow :=
  filter (fun c =>
            eligible w u c
            && forallb (fun c' => implb (eligible w u c')
                                        (ts_le (release_date c') (release_date c)))
                       content)
         content.

Lemma eligible_release (w : Z) (u : UserRow) (c : ContentRow) :
  eligible w u c = true -> exists x, release_date c = Some x.
Proof.
  unfold eligible, ts_ge, ts_le.
  destruct (release_date c) as [x|]; [eauto|].
  destruct (sign_up_date u); discriminate.
Qed.

Section LatestEligible.
Variable cs : list ContentRow.
Variable users : list UserRow.
Variable w : Z.
Variable u : UserRow.
Hypothesis ids_distinct : NoDup (map user_id users).
Hypothesis u_in : In u users.

Let m := merged_of cs users w.
Let G := filter (of_user (user_id u)) (sort_values m_release_date ts_sort_leb m).

Definition released_at (R : Timestamp) (x : MergedRow) : bool :=
  ts_eqb (m_release_date x) R.

(** The rows of the user released at [R], in the order the resolver sees
    them, are the eligible items released at [R], in the order of [cs]. *)
Lemma group_released_at (R : Timestamp) :
  filter (released_at R) G
  = map (row_of w u)
        (filter (fun c => eligible w u c && ts_eqb (release_date c) R) cs).
Proof.
  unfold G. rewrite filter_filter.
  rewrite sort_values_stable.
  2:{ intros x y Hx Hy. apply andb_prop in Hx, Hy.
      destruct Hx as [_ Hx], Hy as [_ Hy]. unfold released_at in *.
      apply ts_eqb_eq in Hx, Hy. rewrite Hx, Hy.
      destruct R; simpl; [apply Z.leb_refl | reflexivity]. }
  unfold m, merged_of. rewrite filter_filter.
  rewrite (filter_ext _ (fun x => of_user (user_id u) x
                                  && (cond x && released_at R x))).
  2:{ intros x. destruct (cond x), (of_user (user_id u) x); reflexivity. }
  rewrite (user_rows users _ u (fun x => cond x && released_at R x))
    by assumption.
  rewrite filter_map_swap, map_map. reflexivity.
Qed.

Lemma ts_eqb_refl (t : Timestamp) : ts_eqb t t = true.
Proof. now apply ts_eqb_eq. Qed.

Lemma group_In (x : MergedRow) :
  In x G <-> exists c, In c cs /\ eligible w u c = true /\ x = row_of w u c.
Proof.
  split.
  - intros Hx.
    assert (H : In x (filter (released_at (m_release_date x)) G)).
    { apply filter_In. split; [exact Hx | apply ts_eqb_refl]. }
    rewrite group_released_at in H. apply in_map_iff in H.
    destruct H as [c [<- Hc]]. apply filter_In in Hc.
    destruct Hc as [Hc He]. apply andb_prop in He.
    exists c. tauto.
  - intros [c [Hc [He ->]]].
    assert (H : In (row_of w u c) (filter (released_at (release_date c)) G)).
    { rewrite group_released_at. apply in_map, filter_In.
      split; [exact Hc|]. now rewrite He, ts_eqb_refl. }
    apply filter_In in H. tauto.
Qed.

Lemma group_sorted :
  StronglySorted (key_le m_release_date ts_sort_leb) G.
Proof.
  apply StronglySorted_filter, sort_values_sorted.
  - exact ts_sort_leb_total.
  - exact ts_sort_leb_trans.
Qed.

(** The show the resolver finds for the user: the last, in the order of
    [cs], of the eligible items with the latest release date. *)
Lemma new_attribution_latest :
  new_attribution m (user_id u)
  = option_map show_id (last_opt (latest_eligible w u cs)).
Proof.
  unfold new_attribution. fold G. rewrite last_opt_map.
  destruct (last_opt G) as [r|] eqn:EG.
  - assert (Hr := last_opt_filter (released_at (m_release_date r)) G r EG
                                  (ts_eqb_refl _)).
    rewrite group_released_at, last_opt_map in Hr.
    set (R := m_release_date r) in *.
    destruct (last_opt (filter _ cs)) as [c|] eqn:Ec; [|discriminate].
    simpl in Hr. injection Hr as Hr.
    assert (Hc := last_opt_In _ _ Ec). apply filter_In in Hc.
    destruct Hc as [Hc Hce]. apply andb_prop in Hce.
    destruct Hce as [Hce HcR]. apply ts_eqb_eq in HcR.
    assert (Hmax : forall c', In c' cs -> eligible w u c' = true ->
              ts_le (release_date c') R = true).
    { intros c' Hc' He'.
      assert (Hin : In (row_of w u c') G) by (apply group_In; eauto).
      destruct (eligible_release _ _ _ He') as [x' Ex'].
      destruct (eligible_release _ _ _ Hce) as [x Ex].
      rewrite HcR in Ex.
      destruct (last_opt_sorted _ _ _ _ group_sorted EG Hin) as [E|Hle].
      - unfold R. rewrite <- E. unfold m_release_date. simpl.
        rewrite Ex'. simpl. apply Z.leb_refl.
      - unfold key_le in Hle. fold R in Hle.
        unfold m_release_date in Hle. simpl in Hle.
        rewrite Ex', Ex in Hle. rewrite Ex', Ex. exact Hle. }
    unfold latest_eligible.
    rewrite (filter_ext_in _
               (fun c0 => eligible w u c0 && ts_eqb (release_date c0) R)).
    + rewrite Ec. simpl. now rewrite <- Hr.
    + intros c' Hc'. destruct (eligible w u c') eqn:He'; [|reflexivity]. simpl.
      destruct (ts_eqb (release_date c') R) eqn:ER.
      * apply ts_eqb_eq in ER. apply forallb_forall. intros c'' Hc''.
        destruct (eligible w u c'') eqn:He''; [|reflexivity]. simpl.
        rewrite ER. now apply Hmax.
      * destruct (forallb _ cs) eqn:Ef; [|reflexivity]. exfalso.
        rewrite forallb_forall in Ef. specialize (Ef c Hc).
        rewrite Hce, HcR in Ef. simpl in Ef.
        specialize (Hmax c' Hc' He').
        destruct (release_date c') as [x'|], R as [x|]; simpl in *;
          try discriminate.
        apply Z.leb_le in Ef, Hmax. apply Z.eqb_neq in ER. lia.
  - simpl. apply last_opt_None in EG.
    replace (latest_eligible w u cs) with (@nil ContentRow); [reflexivity|].
    symmetry. apply filter_nil_iff. intros c Hc.
    destruct (eligible w u c) eqn:He; [|reflexivity]. exfalso.
    assert (Hin : In (row_of w u c) G) by (apply group_In; eauto).
    rewrite EG in Hin. exact Hin.
Qed.

End LatestEligible.

(* ===================================================================== *)
(** ** Example data *)
(* ===================================================================== *)

(** The end-to-end example: one show, one user. *)
Definition S1 : ContentRow :=
  mkContent "S1" "S1" "Drama" (date 2024 1 1) 1000.
Definition U1 : UserRow :=
  mkUser "U1" (date 2024 1 3) (date 2024 1 3) 10 None.

(** Two more shows: [S2] is released a day after [S1]; [S3] shares the
    release date of [S2]. *)
Definition S2 : ContentRow :=
  mkContent "S2" "S2" "Comedy" (date 2024 1 2) 500.
Definition S3 : ContentRow :=
  mkContent "S3" "S3" "Sci-Fi" (date 2024 1 2) 700.

(** A user who signed up long after every release, already attributed. *)
Definition U2 : UserRow :=
  mkUser "U2" (date 2024 3 1) (date 2024 6 15) 12 (Some "S1"%string).

(* ===================================================================== *)
(** ** Properties of the attribution resolver *)
(* ===================================================================== *)

Lemma ts_lt_le (a b : Timestamp) : ts_lt a b = true -> ts_le a b = true.
Proof.
  destruct a, b; simpl; try discriminate.
  rewrite Z.ltb_lt, Z.leb_le. lia.
Qed.

Lemma ts_lt_not_ge (a b : Timestamp) :
  ts_lt a b = true -> ts_le b a = true -> False.
Proof.
  destruct a, b; simpl; try discriminate.
  rewrite Z.ltb_lt, Z.leb_le. lia.
Qed.

Lemma eligible_ts_le_refl (w : Z) (u : UserRow) (c : ContentRow) :
  eligible w u c = true -> ts_le (release_date c) (release_date c) = true.
Proof.
  intros H. destruct (eligible_release _ _ _ H) as [x ->]. apply Z.leb_refl.
Qed.

(** When one eligible item is released strictly after all the others, it is
    the only latest one. *)
Lemma latest_eligible_unique (w : Z) (u : UserRow) (content : list ContentRow)
      (c2 : ContentRow) :
  In c2 content -> eligible w u c2 = true ->
  (forall c, In c content -> eligible w u c = true ->
             c = c2 \/ ts_lt (release_date c) (release_date c2) = true) ->
  last_opt (latest_eligible w u content) = Some c2.
Proof.
  intros Hin He Hmax.
  destruct (last_opt (latest_eligible w u content)) as [c|] eqn:E.
  - apply last_opt_In, filter_In in E. destruct E as [Hc Hp].
    apply andb_prop in Hp. destruct Hp as [Hce Hall].
    rewrite forallb_forall in Hall. specialize (Hall c2 Hin).
    rewrite He in Hall. simpl in Hall.
    destruct (Hmax c Hc Hce) as [->|Hlt]; [reflexivity|].
    destruct (ts_lt_not_ge _ _ Hlt Hall).
  - exfalso. apply last_opt_None in E.
    unfold latest_eligible in E. rewrite filter_nil_iff in E.
    specialize (E c2 Hin). rewrite He in E. simpl in E.
    assert (Hall : forallb (fun c' => implb (eligible w u c')
                      (ts_le (release_date c') (release_date c2))) content = true).
    { apply forallb_forall. intros c Hc.
      destruct (eligible w u c) eqn:Hce; [|reflexivity]. simpl.
      destruct (Hmax c Hc Hce) as [->|Hlt].
      - eapply eligible_ts_le_refl; eassumption.
      - now apply ts_lt_le. }
    rewrite Hall in E. discriminate.
Qed.

(** The row a user leaves with: the show of the last, in the order the
    sort of line 28 gives the catalog, of the user's latest eligible
    items. *)
Lemma assign_last_touch_nth {SK : SortKind} (content : list ContentRow)
      (users : list UserRow) (w : Z) (i : nat) (u : UserRow) (c : ContentRow) :
  NoDup (map user_id users) ->
  nth_error users i = Some u ->
  last_opt (latest_eligible w u (sorted_catalog content)) = Some c ->
  nth_error (assign_last_touch content users w) i
  = Some (set_attributed u (Some (show_id c))).
Proof.
  intros Hnd Hi Hl.
  assert (Hu : In u users) by (eapply nth_error_In; eassumption).
  assert (Hc := last_opt_In _ _ Hl). apply filter_In in Hc.
  destruct Hc as [Hc Hp]. apply andb_prop in Hp. destruct Hp as [He _].
  apply (proj1 (sorted_catalog_In _ _)) in Hc.
  rewrite assign_last_touch_rows.
  destruct (merged content users w) as [|r0 m0] eqn:Em.
  - destruct (merged_nonempty content users w u c Hu Hc He Em).
  - rewrite <- Em. rewrite nth_error_map, Hi. simpl. unfold resolved.
    rewrite merged_eq, new_attribution_latest by assumption. now rewrite Hl.
Qed.

(** C1 (last-touch correctness).  A user one of whose eligible items is
    released strictly after every other eligible item (in particular a user
    with two eligible items released at R1 < R2) is attributed to that item,
    whatever the order of the catalog rows and whatever the sorting
    algorithm. *)
Theorem C1_last_touch_selects_latest_release :
  forall (SK : SortKind) (content content' : list ContentRow)
         (users : list UserRow) (w : Z) (i : nat) (u : UserRow) (c2 : ContentRow),
    Permutation content content' ->
    NoDup (map user_id users) ->
    nth_error users i = Some u ->
    In c2 content ->
    eligible w u c2 = true ->
    (forall c, In c content -> eligible w u c = true ->
               c = c2 \/ ts_lt (release_date c) (release_date c2) = true) ->
    nth_error (assign_last_touch content' users w) i
    = Some (set_attributed u (Some (show_id c2))).
Proof.
  intros SK content content' users w i u c2 Hp Hnd Hi Hc2 He Hmax.
  apply assign_last_touch_nth; try assumption.
  apply latest_eligible_unique; try assumption.
  - apply (proj2 (sorted_catalog_In _ _)). eapply Permutation_in; eassumption.
  - intros c Hc. apply Hmax. apply (proj1 (sorted_catalog_In _ _)) in Hc.
    eapply Permutation_in; [apply Permutation_sym|]; eassumption.
Qed.

Lemma C1_witness :
  nth_error (assign_last_touch (SK := stable_kind) [S2; S1] [U1] 7) 0
  = Some (set_attributed U1 (Some "S2"%string)).
Proof.
  apply (C1_last_touch_selects_latest_release
           stable_kind [S1; S2] [S2; S1] [U1] 7 0%nat U1 S2).
  - apply perm_swap.
  - repeat constructor. simpl. tauto.
  - reflexivity.
  - simpl. tauto.
  - vm_compute. reflexivity.
  - intros c [<-|[<-|[]]] _.
    + right. vm_compute. reflexivity.
    + left. reflexivity.
Defined.

(* --------------------------------------------------------------------- *)
(** *** Ties *)
(* --------------------------------------------------------------------- *)

Section StableInsertion.
Context {A K : Type}.
Variable key : A -> K.
Variable kleb : K -> K -> bool.
Variable p : A -> bool.

Lemma insert_sorted_filter_in (x : A) (l : list A) :
  (forall y, In y l -> p x = true -> p y = true -> kleb (key x) (key y) = true) ->
  filter p (insert_sorted key kleb x l) = filter p (x :: l).
Proof.
  induction l as [|y l IH]; simpl; intros H; [reflexivity|].
  destruct (kleb (key x) (key y)) eqn:E; simpl; [reflexivity|].
  simpl in IH. rewrite IH by (intros z Hz; apply H; now right).
  destruct (p x) eqn:Px, (p y) eqn:Py; try reflexivity.
  rewrite (H y (or_introl eq_refl) eq_refl Py) in E. discriminate.
Qed.

Lemma sort_values_stable_in (l : list A) :
  (forall x y, In x l -> In y l -> p x = true -> p y = true ->
               kleb (key x) (key y) = true) ->
  filter p (sort_values key kleb l) = filter p l.
Proof.
  induction l as [|x l IH]; simpl; intros H; [reflexivity|].
  rewrite insert_sorted_filter_in.
  - simpl. rewrite IH; [reflexivity|].
    intros a b Ha Hb. apply H; now right.
  - intros y Hy. apply sort_values_In in Hy. apply H; [now left | now right].
Qed.

End StableInsertion.

(** A sort kind is stable when rows with equal keys keep their frame
    order. *)
Definition stable (SK : SortKind) : Prop :=
  forall (A K : Type) (key : A -> K) (kleb : K -> K -> bool) (p : A -> bool)
         (l : list A),
    (forall x y, In x l -> In y l -> p x = true -> p y = true ->
                 kleb (key x) (key y) = true) ->
    filter p (argsort key kleb l) = filter p l.

Lemma stable_kind_stable : stable stable_kind.
Proof. intros A K key kleb p l H. now apply sort_values_stable_in. Qed.

(** The test of [latest_eligible]. *)
Definition latest_test (w : Z) (u : UserRow) (content : list ContentRow)
           (c : ContentRow) : bool :=
  eligible w u c
  && forallb (fun c' => implb (eligible w u c')
                              (ts_le (release_date c') (release_date c)))
             content.

Lemma latest_test_perm (w : Z) (u : UserRow) (content content' : list ContentRow)
      (c : ContentRow) :
  Permutation content content' ->
  latest_test w u content c = latest_test w u content' c.
Proof.
  intros Hp. unfold latest_test. f_equal.
  apply eq_true_iff_eq. rewrite !forallb_forall. split; intros H x Hx; apply H.
  - eapply Permutation_in; [apply Permutation_sym|]; eassumption.
  - eapply Permutation_in; eassumption.
Qed.

Lemma latest_test_mutual (w : Z) (u : UserRow) (content : list ContentRow)
      (x y : ContentRow) :
  In x content -> In y content ->
  latest_test w u content x = true -> latest_test w u content y = true ->
  ts_le (release_date x) (release_date y) = true.
Proof.
  intros Hx Hy Px Py. apply andb_prop in Px, Py.
  destruct Px as [Ex _], Py as [_ Ay].
  rewrite forallb_forall in Ay. specialize (Ay x Hx). now rewrite Ex in Ay.
Qed.

(** A stable sort kind leaves the tied latest items in catalog order. *)
Lemma latest_eligible_sorted_stable {SK : SortKind} (w : Z) (u : UserRow)
      (content : list ContentRow) :
  stable SK ->
  latest_eligible w u (sorted_catalog content) = latest_eligible w u content.
Proof.
  intros Hst.
  change (latest_eligible w u content) with (filter (latest_test w u content) content).
  change (latest_eligible w u (sorted_catalog content))
    with (filter (latest_test w u (sorted_catalog content)) (sorted_catalog content)).
  rewrite (filter_ext _ (latest_test w u content))
    by (intros c; apply latest_test_perm, sorted_catalog_perm).
  unfold sorted_catalog, sort_values_by. rewrite filter_app.
  replace (filter (latest_test w u content)
                  (filter (fun x => isnat (release_date x)) content))
    with (@nil ContentRow).
  - rewrite app_nil_r, Hst.
    + rewrite filter_filter. apply filter_ext_in. intros c _.
      destruct (latest_test w u content c) eqn:E;
        [|now rewrite andb_false_r].
      apply andb_prop in E. destruct E as [E _].
      destruct (eligible_release _ _ _ E) as [x ->]. reflexivity.
    + intros x y Hx Hy Px Py. apply filter_In in Hx, Hy.
      destruct Hx as [Hx _], Hy as [Hy _].
      assert (H := latest_test_mutual w u content x y Hx Hy Px Py).
      destruct (release_date x), (release_date y); try discriminate. exact H.
  - symmetry. apply filter_nil_iff. intros c Hc. apply filter_In in Hc.
    destruct Hc as [_ Hc].
    destruct (latest_test w u content c) eqn:E; [|reflexivity].
    apply andb_prop in E. destruct E as [E _].
    destruct (eligible_release _ _ _ E) as [x Ex]. rewrite Ex in Hc. discriminate.
Qed.

Lemma assign_last_touch_length {SK : SortKind} (content : list ContentRow)
      (users : list UserRow) (w : Z) :
  List.length (assign_last_touch content users w) = List.length users.
Proof.
  rewrite assign_last_touch_rows.
  destruct (merged content users w); now rewrite length_map.
Qed.

Lemma single_row {A : Type} (l : list A) (x : A) :
  List.length l = 1%nat -> nth_error l 0 = Some x -> l = [x].
Proof.
  destruct l as [|y [|z l]]; simpl; try discriminate. now intros _ [= ->].
Qed.

(** What the claim C10 would require of the sorting algorithm: for a ledger
    with distinct user ids the tie goes to the last, in catalog row order,
    of the eligible items sharing the latest release date. *)
Definition ties_go_to_last_catalog_row (SK : SortKind) : Prop :=
  forall (content : list ContentRow) (users : list UserRow) (w : Z)
         (i : nat) (u : UserRow) (c : ContentRow),
    NoDup (map user_id users) ->
    nth_error users i = Some u ->
    last_opt (latest_eligible w u content) = Some c ->
    nth_error (assign_last_touch content users w) i
    = Some (set_attributed u (Some (show_id c))).

(** A catalog of eighteen rows: seventeen shows released on the day of
    [S2], then [S1], released the day before. *)
Definition tie_ids : list string :=
  ["T00"; "T01"; "T02"; "T03"; "T04"; "T05"; "T06"; "T07"; "T08"; "T09";
   "T10"; "T11"; "T12"; "T13"; "T14"; "T15"; "T16"]%string.

Definition tie_row (id : string) : ContentRow :=
  mkContent id id "Comedy" (date 2024 1 2) 500.

Definition tie_catalog : list ContentRow := map tie_row tie_ids ++ [S1].

(** C10 fails on the code: the sort of line 28 is a single-key sort with
    the default algorithm, which is free to order rows with equal release
    dates as it likes.  On the catalog above, whose last tied row is [T16],
    an algorithm that gives equal keys the opposite of their frame order
    attributes the user to [T00]. *)
Lemma C10_counterexample :
  ~ (forall SK : SortKind, ties_go_to_last_catalog_row SK)
  /\ last_opt (latest_eligible 7 U1 tie_catalog) = Some (tie_row "T16")
  /\ assign_last_touch (SK := reversing_kind) tie_catalog [U1] 7
     = [set_attributed U1 (Some "T00"%string)].
Proof.
  assert (E : assign_last_touch (SK := reversing_kind) tie_catalog [U1] 7
              = [set_attributed U1 (Some "T00"%string)])
    by (vm_compute; reflexivity).
  assert (L : last_opt (latest_eligible 7 U1 tie_catalog) = Some (tie_row "T16"))
    by (vm_compute; reflexivity).
  split; [|split; assumption].
  intros H.
  assert (Hn := H reversing_kind tie_catalog [U1] 7 0%nat U1 (tie_row "T16")).
  rewrite E in Hn. simpl in Hn.
  assert (Hd : NoDup [user_id U1]) by (repeat constructor; simpl; tauto).
  specialize (Hn Hd eq_refl L). discriminate.
Qed.

(** C10, amended.  For a ledger with distinct user ids, the tie goes to the
    eligible item of latest release date that the sort of line 28 places
    last.  When that sort is stable this is the last tied item in catalog
    row order, and swapping two catalog rows that share a release date
    changes the attribution. *)
Theorem C10_tie_goes_to_last_row_of_sorted_catalog :
  forall SK : SortKind,
    (forall (content : list ContentRow) (users : list UserRow) (w : Z)
            (i : nat) (u : UserRow) (c : ContentRow),
        NoDup (map user_id users) ->
        nth_error users i = Some u ->
        last_opt (latest_eligible w u
                    (sort_values_by release_date ts_sort_leb isnat true content))
        = Some c ->
        nth_error (assign_last_touch content users w) i
        = Some (set_attributed u (Some (show_id c))))
    /\ (stable SK -> ties_go_to_last_catalog_row SK)
    /\ (stable SK ->
        Permutation [S2; S3] [S3; S2]
        /\ release_date S2 = release_date S3
        /\ assign_last_touch [S2; S3] [U1] 7 = [set_attributed U1 (Some "S3"%string)]
        /\ assign_last_touch [S3; S2] [U1] 7 = [set_attributed U1 (Some "S2"%string)]).
Proof.
  intros SK.
  assert (Hrule : stable SK -> ties_go_to_last_catalog_row SK).
  { intros Hst content users w i u c Hnd Hi Hl.
    apply assign_last_touch_nth; try assumption.
    now rewrite latest_eligible_sorted_stable. }
  split; [exact assign_last_touch_nth|]. split; [exact Hrule|].
  intros Hst. specialize (Hrule Hst).
  assert (Hd : NoDup (map user_id [U1])) by (repeat constructor; simpl; tauto).
  split; [apply perm_swap|]. split; [reflexivity|]. split.
  - apply single_row; [now rewrite assign_last_touch_length|].
    apply (Hrule [S2; S3] [U1] 7 0%nat U1 S3 Hd eq_refl).
    vm_compute. reflexivity.
  - apply single_row; [now rewrite assign_last_touch_length|].
    apply (Hrule [S3; S2] [U1] 7 0%nat U1 S2 Hd eq_refl).
    vm_compute. reflexivity.
Qed.

Lemma C10_witness :
  nth_error (assign_last_touch (SK := stable_kind) [S1; S2; S3] [U2; U1] 7) 1
  = Some (set_attributed U1 (Some "S3"%string)).
Proof.
  apply (proj1 (proj2 (C10_tie_goes_to_last_row_of_sorted_catalog stable_kind))
               stable_kind_stable [S1; S2; S3] [U2; U1] 7 1%nat U1 S3).
  - repeat constructor; simpl; intuition discriminate.
  - reflexivity.
  - vm_compute. reflexivity.
Defined.

(* --------------------------------------------------------------------- *)
(** *** Windows *)
(* --------------------------------------------------------------------- *)

(** A wider window keeps every eligible pair. *)
Lemma eligible_mono (w w' : Z) (u : UserRow) (c : ContentRow) :
  w <= w' -> eligible w u c = true -> eligible w' u c = true.
Proof.
  unfold eligible, ts_ge, ts_le, ts_add, Timedelta_days, Calendar.NS_PER_DAY.
  intros Hw.
  destruct (sign_up_date u) as [s|], (release_date c) as [r|]; simpl;
    try (rewrite ?andb_false_r; discriminate).
  rewrite !andb_true_iff, !Z.leb_le. lia.
Qed.

Lemma of_user_row_of (w : Z) (u : UserRow) (c : ContentRow) (uid : string) :
  of_user uid (row_of w u c) = String.eqb uid (user_id u).
Proof. reflexivity. Qed.

Lemma new_attribution_mono {SK : SortKind} (content : list ContentRow)
      (users : list UserRow) (w w' : Z) (uid : string) :
  w <= w' ->
  new_attribution (merged content users w) uid <> None ->
  new_attribution (merged content users w') uid <> None.
Proof.
  intros Hw H H'. apply H. clear H.
  rewrite new_attribution_None in *. rewrite filter_nil_iff in *.
  intros x Hx. apply merged_In in Hx.
  destruct Hx as [u [c [Hu [Hc [He ->]]]]].
  rewrite of_user_row_of.
  rewrite <- (of_user_row_of w' u c uid). apply H'.
  apply merged_In. exists u, c. repeat split; try assumption.
  eapply eligible_mono; eassumption.
Qed.

Lemma merged_mono {SK : SortKind} (content : list ContentRow) (users : list UserRow)
      (w w' : Z) :
  w <= w' -> merged content users w <> [] -> merged content users w' <> [].
Proof.
  intros Hw H.
  destruct (merged content users w) as [|x m] eqn:E; [congruence|].
  assert (Hx : In x (merged content users w)) by (rewrite E; now left).
  apply merged_In in Hx. destruct Hx as [u [c [Hu [Hc [He _]]]]].
  eapply merged_nonempty; try eassumption.
  eapply eligible_mono; eassumption.
Qed.

(** C6 (window monotonicity).  A user attributed under window [W] is still
    attributed, on the same ledger, under any wider window [W']. *)
Theorem C6_attribution_monotone_in_window :
  forall (SK : SortKind) (content : list ContentRow) (users : list UserRow)
         (W W' : Z) (i : nat) (r : UserRow),
    W < W' ->
    nth_error (assign_last_touch content users W) i = Some r ->
    attributed_show_id r <> None ->
    exists r',
      nth_error (assign_last_touch content users W') i = Some r'
      /\ user_id r' = user_id r
      /\ attributed_show_id r' <> None.
Proof.
  intros SK content users W W' i r HW Hi Hr.
  assert (HW' : W <= W') by lia.
  rewrite assign_last_touch_rows in *.
  destruct (merged content users W) as [|x m] eqn:E.
  - rewrite nth_error_map in Hi.
    destruct (nth_error users i); [|discriminate].
    injection Hi as <-. now destruct Hr.
  - rewrite <- E in Hi.
    assert (Hne : merged content users W' <> []).
    { apply (merged_mono content users W W' HW'). rewrite E. discriminate. }
    destruct (merged content users W') as [|x' m'] eqn:E'; [congruence|].
    rewrite <- E'. rewrite nth_error_map in *.
    destruct (nth_error users i) as [u|]; [|discriminate].
    simpl in *. injection Hi as <-.
    eexists. split; [reflexivity|]. split; [reflexivity|].
    unfold resolved in *. simpl in *.
    destruct (new_attribution (merged content users W) (user_id u)) eqn:EW.
    + assert (H : new_attribution (merged content users W') (user_id u) <> None).
      { apply (new_attribution_mono content users W W'); [exact HW'|].
        rewrite EW. discriminate. }
      destruct (new_attribution (merged content users W') (user_id u));
        [discriminate | congruence].
    + destruct (new_attribution (merged content users W') (user_id u));
        [discriminate | exact Hr].
Qed.

Lemma C6_witness :
  exists r',
    nth_error (assign_last_touch (SK := stable_kind) [S1] [U1] 7) 0 = Some r'
    /\ user_id r' = user_id (set_attributed U1 (Some "S1"%string))
    /\ attributed_show_id r' <> None.
Proof.
  apply (C6_attribution_monotone_in_window stable_kind [S1] [U1] 3 7 0%nat
           (set_attributed U1 (Some "S1"%string))).
  - lia.
  - vm_compute. reflexivity.
  - simpl. discriminate.
Defined.

(* --------------------------------------------------------------------- *)
(** *** Prior attributions *)
(* --------------------------------------------------------------------- *)

Lemma merged_nil_iff {SK : SortKind} (content : list ContentRow)
      (users : list UserRow) (w : Z) :
  merged content users w = []
  <-> forall u c, In u users -> In c content -> eligible w u c = false.
Proof.
  split.
  - intros E u c Hu Hc. destruct (eligible w u c) eqn:He; [|reflexivity].
    destruct (merged_nonempty content users w u c Hu Hc He E).
  - intros H. destruct (merged content users w) as [|x m] eqn:E; [reflexivity|].
    assert (Hx : In x (merged content users w)) by (rewrite E; now left).
    apply merged_In in Hx. destruct Hx as [u [c [Hu [Hc [He _]]]]].
    rewrite (H u c Hu Hc) in He. discriminate.
Qed.

(** With at least one match in the ledger, a user without an eligible item
    keeps the attribution they came with. *)
Lemma prior_attribution_kept {SK : SortKind} (content : list ContentRow)
      (users : list UserRow) (w : Z) (i : nat) (u : UserRow) :
  merged content users w <> [] ->
  nth_error users i = Some u ->
  (forall u' c, In u' users -> user_id u' = user_id u -> In c content ->
                eligible w u' c = false) ->
  nth_error (assign_last_touch content users w) i = Some u.
Proof.
  intros Hm Hi Hno. rewrite assign_last_touch_rows.
  destruct (merged content users w) as [|x m] eqn:E; [congruence|].
  rewrite <- E. rewrite nth_error_map, Hi. simpl. f_equal.
  unfold resolved.
  replace (new_attribution (merged content users w) (user_id u)) with (@None string).
  - now destruct u.
  - symmetry. apply new_attribution_None, filter_nil_iff.
    intros r Hr. apply merged_In in Hr.
    destruct Hr as [u' [c [Hu' [Hc [He ->]]]]].
    rewrite of_user_row_of.
    destruct (String.eqb_spec (user_id u) (user_id u')) as [Eid|]; [|reflexivity].
    rewrite (Hno u' c Hu' (eq_sym Eid) Hc) in He. discriminate.
Qed.

(** C2 (non-destructive fallback), at an input where it fails.  [U2] comes
    with the attribution [S1] and has no eligible item under a 7-day window;
    no other user has one either, and the resolver returns [U2] with its
    attribution erased, in the frame object it was handed. *)
Theorem C2_prior_attribution_erased_when_nothing_matches :
  forall SK : SortKind,
    attributed_show_id U2 = Some "S1"%string
    /\ map (eligible 7 U2) [S1; S2] = [false; false]
    /\ assign_last_touch [S1; S2] [U2] 7 = [set_attributed U2 None]
    /\ Store.bind (assign_last_touch_obj [S1; S2] 0%nat 7) Store.df_read
                  [mkFrame [U2] true]
       = Some (mkFrame [set_attributed U2 None] true,
               [mkFrame [set_attributed U2 None] true]).
Proof.
  intros SK.
  assert (E : merged [S1; S2] [U2] 7 = []).
  { apply merged_nil_iff. intros u c [<-|[]] [<-|[<-|[]]]; vm_compute; reflexivity. }
  split; [reflexivity|].
  split; [vm_compute; reflexivity|].
  split.
  - rewrite assign_last_touch_rows, E. reflexivity.
  - unfold assign_last_touch_obj, Store.bind, Store.df_read.
    cbn [nth_error frame_rows fr_has_attributed fr_rows].
    rewrite E. reflexivity.
Qed.

(* ===================================================================== *)
(** ** Lifetime value *)
(* ===================================================================== *)

(** C4 (lifetime months and LTV).  For every user row [compute_ltv] sets
    [lifetime_months] to the calendar month difference of the two dates,
    floored at 1, and [ltv] to [monthly_revenue * lifetime_months]; equal
    sign-up and last-active dates give exactly one month. *)
Theorem C4_lifetime_months_calendar_difference_floored :
  forall (users : list UserRow) (i : nat) (u : UserRow),
    nth_error users i = Some u ->
    exists r,
      nth_error (compute_ltv users) i = Some r
      /\ lr_user r = u
      /\ (forall a b,
             sign_up_date u = Some a -> last_active_date u = Some b ->
             lifetime_months r
             = Z.max 1 ((Calendar.year_of b - Calendar.year_of a) * 12
                        + (Calendar.month_of b - Calendar.month_of a)))
      /\ ltv r = (monthly_revenue u * inject_Z (lifetime_months r))%Q
      /\ 1 <= lifetime_months r
      /\ (sign_up_date u = last_active_date u -> lifetime_months r = 1).
Proof.
  intros users i u Hi. unfold compute_ltv.
  rewrite nth_error_map, Hi. simpl. eexists. split; [reflexivity|]. simpl.
  split; [reflexivity|]. split; [|split; [reflexivity|split]].
  - intros a b Ha Hb. unfold month_diff. now rewrite Ha, Hb.
  - lia.
  - intros E. unfold month_diff. rewrite <- E.
    destruct (sign_up_date u); simpl; lia.
Qed.

Lemma C4_witness :
  exists r,
    nth_error (compute_ltv [U2]) 0 = Some r
    /\ lr_user r = U2
    /\ (forall a b,
           sign_up_date U2 = Some a -> last_active_date U2 = Some b ->
           lifetime_months r
           = Z.max 1 ((Calendar.year_of b - Calendar.year_of a) * 12
                      + (Calendar.month_of b - Calendar.month_of a)))
    /\ ltv r = (monthly_revenue U2 * inject_Z (lifetime_months r))%Q
    /\ 1 <= lifetime_months r
    /\ (sign_up_date U2 = last_active_date U2 -> lifetime_months r = 1).
Proof.
  apply (C4_lifetime_months_calendar_difference_floored [U2] 0%nat U2).
  reflexivity.
Defined.

(** The difference counts calendar months, not elapsed days: 29 days inside
    January give the floor of one month, while the 30 days from 31 January
    to 1 March give two. *)
Example lifetime_months_same_month :
  map lifetime_months
      (compute_ltv [mkUser "A" (date 2024 1 1) (date 2024 1 30) 10 None])
  = [1].
Proof. vm_compute. reflexivity. Qed.

Example lifetime_months_across_month_ends :
  map lifetime_months
      (compute_ltv [mkUser "B" (date 2024 1 31) (date 2024 3 1) 10 None])
  = [2].
Proof. vm_compute. reflexivity. Qed.

(* ===================================================================== *)
(** ** The end-to-end example *)
(* ===================================================================== *)

(** C9 (end-to-end example).  On the one-show catalog and the one-user
    ledger with a 7-day window: the user is attributed to [S1]; the lifetime
    is one month and the LTV 10; the show row counts one user, revenue 10,
    cost 1000 and ROI -0.99. *)
Theorem C9_end_to_end_example :
  forall SK : SortKind,
    let attributed := assign_last_touch [S1] [U1] 7 in
    map attributed_show_id attributed = [Some "S1"%string]
    /\ map (fun r => (lifetime_months r, ltv r)) (compute_ltv attributed)
       = [(1, 10%Q)]
    /\ exists r,
         fst (AnalysisAndPlots.main [S1] attributed) = [r]
         /\ sr_attributed_show_id (sf_rev r) = "S1"%string
         /\ attributed_users (sf_rev r) = 1
         /\ (total_revenue (sf_rev r) == 10)%Q
         /\ Feq (sf_production_cost r) (Fin 1000)
         /\ Feq (roi r) (Fin (- (99 # 100))).
Proof.
  intros SK.
  assert (E : assign_last_touch [S1] [U1] 7 = [set_attributed U1 (Some "S1"%string)]).
  { apply single_row; [now rewrite assign_last_touch_length|].
    apply (assign_last_touch_nth [S1] [U1] 7 0%nat U1 S1).
    - repeat constructor. simpl. tauto.
    - reflexivity.
    - unfold sorted_catalog. rewrite sort_values_by_single.
      vm_compute. reflexivity. }
  cbv zeta. rewrite E.
  split; [vm_compute; reflexivity|].
  split; [vm_compute; reflexivity|].
  eexists. split; [vm_compute; reflexivity|].
  repeat split; vm_compute; reflexivity.
Qed.

(* ===================================================================== *)
(** ** Ratios with a zero denominator *)
(* ===================================================================== *)

Lemma Qsign_pos (q : Q) : (0 < q)%Q -> exists p, Qsign q = Zpos p.
Proof.
  destruct q as [n d]. unfold Qlt, Qsign. simpl. intros H.
  destruct n as [|p|p]; try lia. now exists 1%positive.
Qed.

Lemma Qsign_neg (q : Q) : (q < 0)%Q -> exists p, Qsign q = Zneg p.
Proof.
  destruct q as [n d]. unfold Qlt, Qsign. simpl. intros H.
  destruct n as [|p|p]; try lia. now exists 1%positive.
Qed.

Lemma Qsign_zero (q : Q) : (q == 0)%Q -> Qsign q = 0.
Proof.
  destruct q as [n d]. unfold Qeq, Qsign. simpl. intros H.
  destruct n as [|p|p]; simpl; lia.
Qed.

(** Division of a number by zero. *)
Lemma fdiv_by_zero (a b : Q) :
  (b == 0)%Q ->
  ((0 < a)%Q -> fdiv (Fin a) (Fin b) = PInf)
  /\ ((a == 0)%Q -> fdiv (Fin a) (Fin b) = NaN)
  /\ ((a < 0)%Q -> fdiv (Fin a) (Fin b) = NInf).
Proof.
  intros Hb. unfold fdiv.
  apply Qeq_bool_iff in Hb. rewrite Hb.
  repeat split; intros Ha.
  - destruct (Qsign_pos a Ha) as [p ->]. reflexivity.
  - now rewrite (Qsign_zero a Ha).
  - destruct (Qsign_neg a Ha) as [p ->]. reflexivity.
Qed.

Lemma fdiv_by_nonzero (a b : Q) :
  ~ (b == 0)%Q -> fdiv (Fin a) (Fin b) = Fin (a / b).
Proof.
  intros Hb. unfold fdiv.
  destruct (Qeq_bool b 0) eqn:E; [|reflexivity].
  apply Qeq_bool_iff in E. contradiction.
Qed.

Lemma show_rev_roi (users : list LtvRow) (content : list ContentRow) (r : ShowFin) :
  In r (show_rev users content) ->
  roi r = fdiv (fsub (Fin (total_revenue (sf_rev r))) (sf_production_cost r))
               (sf_production_cost r).
Proof.
  unfold show_rev. rewrite in_map_iff. intros [x [<- _]]. reflexivity.
Qed.

Lemma genre_fin_ratios (sr : list ShowFin) (g : GenreFin) :
  In g (genre_fin sr) ->
  cac_per_user g
  = fdiv (total_prod_cost g) (replace_0_nan (total_attributed_users g))
  /\ ltv_per_user g
     = fdiv (Fin (gf_total_revenue g)) (replace_0_nan (total_attributed_users g))
  /\ ltv_to_cac g = fdiv (ltv_per_user g) (cac_per_user g).
Proof.
  unfold genre_fin. rewrite in_map_iff. intros [x [<- _]]. simpl. auto.
Qed.

(** What the claim C3 would require: a missing value for every ratio whose
    cost denominator is zero. *)
Definition zero_cost_ratios_undefined : Prop :=
  (forall users content r,
      In r (show_rev users content) ->
      Feq (sf_production_cost r) (Fin 0) -> roi r = NaN)
  /\ (forall sr g,
         In g (genre_fin sr) ->
         total_attributed_users g <> 0 ->
         Feq (total_prod_cost g) (Fin 0) ->
         cac_per_user g = NaN /\ ltv_to_cac g = NaN).

(** A show that cost nothing, and the user attributed to it. *)
Definition S0 : ContentRow :=
  mkContent "S0" "S0" "Comedy" (date 2024 1 1) 0.
Definition U0 : UserRow :=
  mkUser "U0" (date 2024 1 3) (date 2024 1 3) 10 (Some "S0"%string).

(** C3 fails on the code: with a production cost of zero the ROI of [S0] and
    the LTV:CAC ratio of its genre are infinite, and the CAC is the number
    zero. *)
Lemma C3_counterexample :
  ~ zero_cost_ratios_undefined
  /\ map (fun r => (sf_production_cost r, roi r))
         (fst (AnalysisAndPlots.main [S0] [U0]))
     = [(Fin 0, PInf)]
  /\ map (fun g => (total_attributed_users g, ltv_to_cac g))
         (snd (AnalysisAndPlots.main [S0] [U0]))
     = [(1, PInf)]
  /\ exists g, snd (AnalysisAndPlots.main [S0] [U0]) = [g]
               /\ Feq (total_prod_cost g) (Fin 0)
               /\ Feq (cac_per_user g) (Fin 0).
Proof.
  split.
  - intros [H _].
    specialize (H (compute_ltv [U0]) [S0]).
    assert (Hr : exists r, In r (show_rev (compute_ltv [U0]) [S0])
                           /\ Feq (sf_production_cost r) (Fin 0) /\ roi r = PInf).
    { eexists. split; [vm_compute; left; reflexivity|].
      split; vm_compute; reflexivity. }
    destruct Hr as [r [Hin [Hc Hroi]]].
    specialize (H r Hin Hc). congruence.
  - split; [vm_compute; reflexivity|].
    split; [vm_compute; reflexivity|].
    eexists. split; [vm_compute; reflexivity|].
    split; vm_compute; reflexivity.
Qed.

(** C3, amended.  No ratio raises.  A show of cost zero has an infinite ROI
    of the sign of its revenue, and a missing one when the revenue is zero
    too.  A genre without attributed users has all three ratios missing (the
    only guarded denominator).  A genre with attributed users and a total
    cost of zero has a CAC of zero and an LTV:CAC ratio that is infinite, or
    missing when its revenue is zero. *)
Theorem C3_zero_denominators_follow_float_division :
  (forall users content r,
      In r (show_rev users content) ->
      Feq (sf_production_cost r) (Fin 0) ->
      ((0 < total_revenue (sf_rev r))%Q -> roi r = PInf)
      /\ ((total_revenue (sf_rev r) == 0)%Q -> roi r = NaN)
      /\ ((total_revenue (sf_rev r) < 0)%Q -> roi r = NInf))
  /\ (forall sr g,
         In g (genre_fin sr) ->
         total_attributed_users g = 0 ->
         cac_per_user g = NaN /\ ltv_per_user g = NaN /\ ltv_to_cac g = NaN)
  /\ (forall sr g,
         In g (genre_fin sr) ->
         0 < total_attributed_users g ->
         Feq (total_prod_cost g) (Fin 0) ->
         Feq (cac_per_user g) (Fin 0)
         /\ ((0 < gf_total_revenue g)%Q -> ltv_to_cac g = PInf)
         /\ ((gf_total_revenue g == 0)%Q -> ltv_to_cac g = NaN)).
Proof.
  split; [|split].
  - intros users content r Hin Hc.
    rewrite (show_rev_roi _ _ _ Hin).
    destruct (sf_production_cost r) as [q| | |]; simpl in Hc; try contradiction.
    unfold fsub, fneg, fadd.
    destruct (fdiv_by_zero (total_revenue (sf_rev r) + - q) q Hc) as [Hp [Hz Hn]].
    assert (E : (total_revenue (sf_rev r) + - q == total_revenue (sf_rev r))%Q).
    { rewrite Hc. ring. }
    repeat split; intros H; [apply Hp | apply Hz | apply Hn]; now rewrite E.
  - intros sr g Hin Hz.
    destruct (genre_fin_ratios sr g Hin) as [Hc [Hl Hr]].
    rewrite Hr, Hc, Hl, Hz. simpl.
    destruct (total_prod_cost g); auto.
  - intros sr g Hin Hpos Hc.
    destruct (genre_fin_ratios sr g Hin) as [Hcac [Hl Hr]].
    destruct (total_prod_cost g) as [q| | |]; simpl in Hc; try contradiction.
    unfold replace_0_nan in *.
    destruct (Z.eqb_spec (total_attributed_users g) 0) as [E|_]; [lia|].
    assert (Hn : ~ (inject_Z (total_attributed_users g) == 0)%Q).
    { unfold Qeq, inject_Z. simpl. lia. }
    assert (Hn' : (0 < / inject_Z (total_attributed_users g))%Q).
    { apply Qinv_lt_0_compat. unfold Qlt, inject_Z. simpl. lia. }
    rewrite fdiv_by_nonzero in Hcac, Hl by exact Hn.
    assert (Hcz : (q / inject_Z (total_attributed_users g) == 0)%Q).
    { rewrite Hc. unfold Qdiv. ring. }
    rewrite Hr, Hcac, Hl.
    destruct (fdiv_by_zero (gf_total_revenue g / inject_Z (total_attributed_users g))
                           (q / inject_Z (total_attributed_users g)) Hcz)
      as [Hp [Hz _]].
    split; [exact Hcz|]. split; intros H.
    + apply Hp. unfold Qdiv. now apply Qmult_lt_0_compat.
    + apply Hz. rewrite H. unfold Qdiv. ring.
Qed.

(** The rows of the zero-cost example, and a show row without users. *)
Definition S0_show_row : ShowFin :=
  {| sf_rev := {| sr_attributed_show_id := "S0";
                  attributed_users := 1;
                  total_revenue := 10 |};
     sf_content := Some S0;
     roi := PInf |}.

Definition S0_empty_row : ShowFin :=
  {| sf_rev := {| sr_attributed_show_id := "S0";
                  attributed_users := 0;
                  total_revenue := 0 |};
     sf_content := Some S0;
     roi := NaN |}.

Definition genre_row_of (sr : list ShowFin) : GenreFin :=
  hd (mkGenreFin "" 0 NaN 0 NaN NaN NaN) (genre_fin sr).

Lemma C3_witness :
  roi S0_show_row = PInf
  /\ (cac_per_user (genre_row_of [S0_empty_row]) = NaN
      /\ ltv_per_user (genre_row_of [S0_empty_row]) = NaN
      /\ ltv_to_cac (genre_row_of [S0_empty_row]) = NaN)
  /\ ltv_to_cac (genre_row_of [S0_show_row]) = PInf.
Proof.
  split; [|split].
  - apply (proj1 C3_zero_denominators_follow_float_division
                 (compute_ltv [U0]) [S0] S0_show_row).
    + vm_compute. left. reflexivity.
    + vm_compute. reflexivity.
    + vm_compute. reflexivity.
  - apply (proj1 (proj2 C3_zero_denominators_follow_float_division)
                 [S0_empty_row]).
    + vm_compute. left. reflexivity.
    + vm_compute. reflexivity.
  - apply (proj2 (proj2 C3_zero_denominators_follow_float_division)
                 [S0_show_row]).
    + vm_compute. left. reflexivity.
    + vm_compute. reflexivity.
    + vm_compute. reflexivity.
    + vm_compute. reflexivity.
Defined.

(* ===================================================================== *)
(** ** Records that break an invariant of the data model *)
(* ===================================================================== *)

Definition malformed_user (u : UserRow) : Prop :=
  ts_lt (last_active_date u) (sign_up_date u) = true
  \/ (monthly_revenue u < 0)%Q.

Definition malformed_content (c : ContentRow) : Prop :=
  (production_cost c < 0)%Q.

(** What the claim C7 would require of the load boundary: no malformed
    record among the rows handed on. *)
Definition malformed_records_rejected : Prop :=
  forall content_csv user_csv,
    (forall c, In c (fst (load_data content_csv user_csv)) -> ~ malformed_content c)
    /\ (forall u, In u (snd (load_data content_csv user_csv)) -> ~ malformed_user u).

(** A show of negative cost, and a user last active before signing up who
    pays a negative amount. *)
Definition S_bad : ContentRow :=
  mkContent "SB" "SB" "Drama" (date 2024 1 1) (-100).
Definition U_bad : UserRow :=
  mkUser "UB" (date 2024 3 1) (date 2024 1 1) (-5) (Some "SB"%string).

(** C7 fails on the code: both malformed records pass [load_data], and an
    LTV and a show row are computed from them. *)
Lemma C7_counterexample :
  ~ malformed_records_rejected
  /\ malformed_content S_bad
  /\ malformed_user U_bad
  /\ load_data [S_bad] [U_bad] = ([S_bad], [U_bad])
  /\ map (fun r => (lifetime_months r, ltv r))
         (compute_ltv (snd (load_data [S_bad] [U_bad])))
     = [(1, (-5)%Q)]
  /\ map (fun r => (attributed_users (sf_rev r), total_revenue (sf_rev r),
                    sf_production_cost r))
         (fst (AnalysisAndPlots.main [S_bad] [U_bad]))
     = [(1, (-5)%Q, Fin (-100))].
Proof.
  assert (Hc : malformed_content S_bad) by (vm_compute; reflexivity).
  split; [|split; [exact Hc|split; [left; vm_compute; reflexivity|]]].
  - intros H. destruct (H [S_bad] [U_bad]) as [H1 _].
    apply (H1 S_bad); [left; reflexivity | exact Hc].
  - split; [reflexivity|]. split; vm_compute; reflexivity.
Qed.

Lemma ltv_negative (rev : Q) (months : Z) :
  (rev < 0)%Q -> 1 <= months -> (rev * inject_Z months < 0)%Q.
Proof.
  destruct rev as [n d]. unfold Qlt, Qmult, inject_Z. simpl. nia.
Qed.

(** C7, amended.  [load_data] hands on every record it reads, as it is, and
    [compute_ltv] computes a lifetime of at least one month and an LTV for
    every one of them; a negative monthly revenue gives a negative LTV. *)
Theorem C7_records_are_loaded_and_processed_unchecked :
  forall (content_csv : list ContentRow) (user_csv : list UserRow),
    load_data content_csv user_csv = (content_csv, user_csv)
    /\ forall (i : nat) (u : UserRow),
         nth_error user_csv i = Some u ->
         exists r,
           nth_error (compute_ltv (snd (load_data content_csv user_csv))) i = Some r
           /\ lr_user r = u
           /\ 1 <= lifetime_months r
           /\ ltv r = (monthly_revenue u * inject_Z (lifetime_months r))%Q
           /\ ((monthly_revenue u < 0)%Q -> (ltv r < 0)%Q).
Proof.
  intros content_csv user_csv. split; [reflexivity|].
  intros i u Hi. unfold compute_ltv. simpl.
  rewrite nth_error_map, Hi. simpl. eexists. split; [reflexivity|]. simpl.
  split; [reflexivity|]. split; [lia|]. split; [reflexivity|].
  intros H. apply ltv_negative; [exact H | lia].
Qed.

Lemma C7_witness :
  exists r,
    nth_error (compute_ltv (snd (load_data [S_bad] [U_bad]))) 0 = Some r
    /\ lr_user r = U_bad
    /\ 1 <= lifetime_months r
    /\ ltv r = (monthly_revenue U_bad * inject_Z (lifetime_months r))%Q
    /\ ((monthly_revenue U_bad < 0)%Q -> (ltv r < 0)%Q).
Proof.
  apply (proj2 (C7_records_are_loaded_and_processed_unchecked [S_bad] [U_bad])
               0%nat U_bad).
  reflexivity.
Defined.

(* ===================================================================== *)
(** ** Attributions that match no catalog item *)
(* ===================================================================== *)


Definition has_key {A : Type} (key : A -> option string) (r : A) : bool :=
  match key r with
  | Some _ => true
  | None => false
  end.


(** A row of [show_rev] with a cost basis from the catalog. *)
Definition matched (r : ShowFin) : bool :=
  match sf_content r with
  | Some _ => true
  | None => false
  end.


(** A user attributed to a show the catalog does not have. *)
Definition U_x : UserRow :=
  mkUser "UX" (date 2024 1 3) (date 2024 2 3) 10 (Some "SX"%string).




(* ===================================================================== *)
(** ** The sensitivity sweep *)
(* ===================================================================== *)

Section StoreFacts.
Import Store.

Lemma nth_error_update_same (h : heap) (r : ref) (v x : Frame) :
  nth_error h r = Some x -> nth_error (update r v h) r = Some v.
Proof.
  revert r. induction h as [|y h IH]; intros [|r]; simpl; try discriminate.
  - reflexivity.
  - apply IH.
Qed.

Lemma nth_error_update_other (h : heap) (r r0 : ref) (v : Frame) :
  r0 <> r -> nth_error (update r v h) r0 = nth_error h r0.
Proof.
  revert r r0. induction h as [|y h IH]; intros [|r] [|r0] H; simpl;
    try reflexivity; try congruence.
  apply IH. congruence.
Qed.

Lemma length_update (h : heap) (r : ref) (v : Frame) :
  List.length (update r v h) = List.length h.
Proof.
  revert r. induction h as [|y h IH]; intros [|r]; simpl; try reflexivity.
  now rewrite IH.
Qed.

Lemma nth_error_snoc_old (h : heap) (v x : Frame) (r : ref) :
  nth_error h r = Some x -> nth_error (h ++ [v]) r = Some x.
Proof.
  intros H. rewrite nth_error_app1; [exact H|].
  apply nth_error_Some. congruence.
Qed.

Lemma nth_error_snoc_new (h : heap) (v : Frame) :
  nth_error (h ++ [v]) (List.length h) = Some v.
Proof.
  rewrite nth_error_app2 by lia. now rewrite Nat.sub_diag.
Qed.

Lemma nth_error_fresh (h : heap) (x : Frame) (r : ref) :
  nth_error h r = Some x -> r <> List.length h.
Proof.
  intros H E. assert (r < List.length h)%nat by (apply nth_error_Some; congruence).
  lia.
Qed.

Context {SK : SortKind}.

(** The store after the column of lines 60-61 has been added, if it was
    missing. *)
Definition with_column (r : ref) (fr : Frame) (h : heap) : heap :=
  if fr_has_attributed fr then h else update r (mkFrame (frame_rows fr) true) h.

Lemma length_with_column (r : ref) (fr : Frame) (h : heap) :
  List.length (with_column r fr h) = List.length h.
Proof. unfold with_column. destruct (fr_has_attributed fr); [reflexivity|]. apply length_update. Qed.

(** The run without a match: the column of the argument is overwritten. *)
Lemma assign_last_touch_obj_no_match (content : list ContentRow) (r : ref) (w : Z)
      (h : heap) (fr : Frame) :
  nth_error h r = Some fr ->
  merged content (frame_rows fr) w = [] ->
  assign_last_touch_obj content r w h
  = Some (r, update r (mkFrame (map (fun u => set_attributed u None) (frame_rows fr))
                               true) h).
Proof.
  intros Hr E. unfold assign_last_touch_obj, bind, df_read. rewrite Hr, E.
  unfold df_assign, ret. now rewrite Hr.
Qed.

(** The run with a match: the argument gains the column if it lacked it,
    and a new frame is returned. *)
Lemma assign_last_touch_obj_match (content : list ContentRow) (r : ref) (w : Z)
      (h : heap) (fr : Frame) :
  nth_error h r = Some fr ->
  merged content (frame_rows fr) w <> [] ->
  assign_last_touch_obj content r w h
  = Some (List.length h,
          with_column r fr h
          ++ [mkFrame (assign_last_touch content (frame_rows fr) w) true]).
Proof.
  intros Hr Hne. unfold assign_last_touch_obj, bind, df_read, assign_last_touch.
  rewrite Hr. destruct (merged content (frame_rows fr) w) as [|x m]; [congruence|].
  unfold with_column. destruct (fr_has_attributed fr).
  - reflexivity.
  - unfold df_assign. rewrite Hr. unfold df_new. now rewrite length_update.
Qed.

(** A run of [assign_last_touch] on a frame object: the frame it returns
    holds the resolved rows, and no other frame object is touched. *)
Lemma assign_last_touch_obj_run (content : list ContentRow) (r : ref) (w : Z)
      (h : heap) (fr : Frame) :
  nth_error h r = Some fr ->
  exists r' h',
    assign_last_touch_obj content r w h = Some (r', h')
    /\ nth_error h' r'
       = Some (mkFrame (assign_last_touch content (frame_rows fr) w) true)
    /\ forall r0 x, r0 <> r -> nth_error h r0 = Some x -> nth_error h' r0 = Some x.
Proof.
  intros Hr.
  destruct (merged content (frame_rows fr) w) as [|x m] eqn:E.
  - rewrite (assign_last_touch_obj_no_match content r w h fr Hr E).
    eexists _, _. split; [reflexivity|]. split.
    + rewrite assign_last_touch_rows, E.
      eapply nth_error_update_same; eassumption.
    + intros r0 y Hne Hy. now rewrite nth_error_update_other.
  - rewrite (assign_last_touch_obj_match content r w h fr Hr)
      by (rewrite E; discriminate).
    eexists _, _. split; [reflexivity|]. split.
    + rewrite <- (length_with_column r fr h). apply nth_error_snoc_new.
    + intros r0 y Hne Hy. apply nth_error_snoc_old.
      unfold with_column. destruct (fr_has_attributed fr); [exact Hy|].
      now rewrite nth_error_update_other.
Qed.

(** Attribution of a copy: the value is computed from the rows of the
    original frame, which is left as it was. *)
Lemma resolve_copy_run {B : Type} (f : list UserRow -> B)
      (content : list ContentRow) (users : ref) (w : Z) (h : heap) (fr : Frame) :
  nth_error h users = Some fr ->
  exists h',
    (copy <- df_copy users ;;
     attributed <- assign_last_touch_obj content copy w ;;
     frame <- df_read attributed ;;
     ret (f (frame_rows frame))) h
    = Some (f (assign_last_touch content (frame_rows fr) w), h')
    /\ nth_error h' users = Some fr.
Proof.
  intros Hu. unfold df_copy, bind at 1 2, df_read at 1, df_new.
  rewrite Hu.
  destruct (assign_last_touch_obj_run content (List.length h) w (h ++ [fr]) fr
              (nth_error_snoc_new h fr)) as [r' [h' [Hrun [Hr' Hkeep]]]].
  unfold bind. rewrite Hrun. unfold df_read. rewrite Hr'. unfold ret.
  exists h'. split; [reflexivity|].
  apply Hkeep.
  - eapply nth_error_fresh; eassumption.
  - eapply nth_error_snoc_old; eassumption.
Qed.

End StoreFacts.

Lemma groupby_map {A B : Type} (f : A -> B) (key : B -> option string)
      (rows : list A) :
  groupby key (map f rows)
  = map (fun g => (fst g, map f (snd g))) (groupby (fun x => key (f x)) rows).
Proof.
  unfold groupby. rewrite !map_map. simpl.
  apply map_ext. intros k. f_equal. apply filter_map_swap.
Qed.

Lemma groupby_keys_NoDup {A : Type} (key : A -> option string) (rows : list A) :
  NoDup (map fst (groupby key rows)).
Proof.
  unfold groupby. rewrite map_map. simpl. rewrite map_id. apply group_keys_NoDup.
Qed.

Lemma NoDup_map_eq {A B : Type} (f : A -> B) (l : list A) (x y : A) :
  NoDup (map f l) -> In x l -> In y l -> f x = f y -> x = y.
Proof.
  induction l as [|z l IH]; simpl; [contradiction|].
  intros Hnd Hx Hy E. apply NoDup_cons_iff in Hnd. destruct Hnd as [Hz Hnd].
  destruct Hx as [->|Hx], Hy as [->|Hy]; try reflexivity.
  - exfalso. apply Hz. rewrite E. now apply in_map.
  - exfalso. apply Hz. rewrite <- E. now apply in_map.
  - now apply IH.
Qed.

Lemma genre_fin_genres_NoDup (sr : list ShowFin) : NoDup (map gf_genre (genre_fin sr)).
Proof.
  unfold genre_fin. rewrite map_map. simpl.
  apply (groupby_keys_NoDup (fun r => joined_genre (sf_content r))).
Qed.

(** [compute_genre_metrics] is the LTV calculator followed by the two
    aggregation steps of [analysis_and_plots.py]. *)
Lemma compute_genre_metrics_stages (users : list UserRow) (content : list ContentRow) :
  compute_genre_metrics users content
  = genre_fin (show_rev (compute_ltv users) content).
Proof.
  unfold compute_genre_metrics, genre_fin, show_rev.
  rewrite groupby_map, map_map.
  apply map_ext. intros g. simpl.
  unfold sf_production_cost. rewrite !map_map. reflexivity.
Qed.

(** The genre table of one sweep point: the resolver, the LTV calculator
    and the aggregator run on the rows of the original ledger with the
    window [w] alone. *)
Definition sweep_point_table {SK : SortKind} (content : list ContentRow)
           (rows : list UserRow) (w : Z) : list GenreFin :=
  genre_fin (show_rev (compute_ltv (assign_last_touch content rows w)) content).

(** The rows of one sweep point. *)
Definition sweep_point {SK : SortKind} (content : list ContentRow)
           (rows : list UserRow) (w : Z) : list SweepRow :=
  genre_rows w (sweep_point_table content rows w).

Section SweepFacts.
Import Store.
Context {SK : SortKind}.
Variable content : list ContentRow.
Variable users : ref.
Variable fr : Frame.

Let step (w : Z) : M (list SweepRow) :=
  copy <- df_copy users ;;
  attributed <- assign_last_touch_obj content copy w ;;
  frame <- df_read attributed ;;
  ret (genre_rows w (compute_genre_metrics (frame_rows frame) content)).

Lemma sweep_step (w : Z) (h : heap) :
  nth_error h users = Some fr ->
  exists h',
    step w h = Some (sweep_point content (frame_rows fr) w, h')
    /\ nth_error h' users = Some fr.
Proof.
  intros Hu.
  destruct (resolve_copy_run
              (fun rows => genre_rows w (compute_genre_metrics rows content))
              content users w h fr Hu) as [h' [E Hu']].
  exists h'. split; [|exact Hu'].
  unfold step. rewrite E. unfold sweep_point, sweep_point_table.
  now rewrite compute_genre_metrics_stages.
Qed.

Lemma sweep_steps (ws : list Z) (h : heap) :
  nth_error h users = Some fr ->
  exists h',
    mapM step ws h = Some (map (sweep_point content (frame_rows fr)) ws, h')
    /\ nth_error h' users = Some fr.
Proof.
  revert h. induction ws as [|w ws IH]; intros h Hu; simpl.
  - exists h. split; [reflexivity | exact Hu].
  - destruct (sweep_step w h Hu) as [h1 [E1 Hu1]].
    destruct (IH h1 Hu1) as [h2 [E2 Hu2]].
    exists h2. split; [|exact Hu2].
    unfold bind. rewrite E1, E2. reflexivity.
Qed.

Lemma sweep_run (ws : list Z) (h : heap) :
  nth_error h users = Some fr ->
  exists h',
    sweep content users ws h
    = Some (flat_map (sweep_point content (frame_rows fr)) ws, h')
    /\ nth_error h' users = Some fr.
Proof.
  intros Hu. destruct (sweep_steps ws h Hu) as [h' [E Hu']].
  exists h'. split; [|exact Hu'].
  unfold sweep. unfold bind at 1. unfold step in E. rewrite E. unfold ret.
  now rewrite flat_map_concat_map.
Qed.

End SweepFacts.

Lemma sweep_point_windows {SK : SortKind} (content : list ContentRow)
      (rows : list UserRow) (w : Z) :
  map window (sweep_point content rows w) = [w; w].
Proof.
  unfold sweep_point, genre_rows. cbn [map].
  repeat match goal with
         | |- context [match ?l with [] => _ | _ :: _ => _ end] => destruct l
         end; reflexivity.
Qed.

Lemma sweep_point_rows {SK : SortKind} (content : list ContentRow)
      (rows : list UserRow) (w : Z) :
  map (fun r => (window r, sw_genre r)) (sweep_point content rows w)
  = [(w, "Sci-Fi"%string); (w, "Comedy"%string)].
Proof.
  unfold sweep_point, genre_rows. cbn [map].
  repeat match goal with
         | |- context [match ?l with [] => _ | _ :: _ => _ end] => destruct l
         end; reflexivity.
Qed.

Lemma sweep_points_rows {SK : SortKind} (content : list ContentRow)
      (rows : list UserRow) (ws : list Z) :
  map (fun r => (window r, sw_genre r)) (flat_map (sweep_point content rows) ws)
  = flat_map (fun w => [(w, "Sci-Fi"%string); (w, "Comedy"%string)]) ws.
Proof.
  induction ws as [|w ws IH]; [reflexivity|].
  cbn [flat_map]. rewrite map_app, sweep_point_rows, IH. reflexivity.
Qed.

(** A row of the inner loop carries the window, and the ratio of the row of
    its genre in the genre table, or [NaN] when the table has no such row. *)
Lemma genre_rows_value (w : Z) (gf : list GenreFin) (r : SweepRow) :
  NoDup (map gf_genre gf) ->
  In r (genre_rows w gf) ->
  window r = w
  /\ (forall g, In g gf -> gf_genre g = sw_genre r -> sw_ltv_to_cac r = ltv_to_cac g)
  /\ ((forall g, In g gf -> gf_genre g <> sw_genre r) -> sw_ltv_to_cac r = NaN).
Proof.
  intros Hnd Hr. unfold genre_rows in Hr. apply in_map_iff in Hr.
  destruct Hr as [k [<- _]].
  destruct (filter (fun r0 => String.eqb (gf_genre r0) k) gf) as [|val l] eqn:E;
    simpl.
  - split; [reflexivity|]. split; [|reflexivity].
    intros g Hg Hk. rewrite filter_nil_iff in E. specialize (E g Hg).
    rewrite Hk, String.eqb_refl in E. discriminate.
  - assert (Hv : In val (filter (fun r0 => String.eqb (gf_genre r0) k) gf))
      by (rewrite E; now left).
    apply filter_In in Hv. destruct Hv as [Hv Hk]. apply String.eqb_eq in Hk.
    split; [reflexivity|]. split.
    + intros g Hg Hgk. f_equal.
      apply (NoDup_map_eq gf_genre gf); try assumption. congruence.
    + intros Hno. destruct (Hno val Hv Hk).
Qed.

(** C5 (sweep from scratch).  The sweep over any list of windows returns,
    window by window in list order, one row for Sci-Fi and one for Comedy;
    each row holds the LTV:CAC ratio that the aggregator gives to its genre
    when the resolver, the LTV calculator and the aggregator are run on the
    rows of the original ledger with the window of the row alone ([NaN]
    when the aggregator has no row for the genre); the ledger object is left
    as it was.  The rows of [main], whose windows are 3, 7 and 14, are in
    ascending window order. *)
Theorem C5_sweep_points_computed_from_original_ledger :
  forall (SK : SortKind) (content : list ContentRow) (h : Store.heap)
         (users : Store.ref) (fr : Frame),
    nth_error h users = Some fr ->
    (forall ws : list Z,
        exists out h',
          sweep content users ws h = Some (out, h')
          /\ nth_error h' users = Some fr
          /\ map (fun r => (window r, sw_genre r)) out
             = flat_map (fun w => [(w, "Sci-Fi"%string); (w, "Comedy"%string)]) ws
          /\ forall r, In r out ->
               let table :=
                 genre_fin
                   (show_rev
                      (compute_ltv
                         (assign_last_touch content (frame_rows fr) (window r)))
                      content) in
               (forall g, In g table -> gf_genre g = sw_genre r ->
                          sw_ltv_to_cac r = ltv_to_cac g)
               /\ ((forall g, In g table -> gf_genre g <> sw_genre r) ->
                   sw_ltv_to_cac r = NaN))
    /\ exists out h',
         SensitivityAnalysis.main content users h = Some (out, h')
         /\ map window out = [3; 3; 7; 7; 14; 14]
         /\ StronglySorted Z.le (map window out).
Proof.
  intros SK content h users fr Hu. split.
  - intros ws. destruct (sweep_run content users fr ws h Hu) as [h' [E Hu']].
    eexists _, h'. split; [exact E|]. split; [exact Hu'|]. split.
    + apply sweep_points_rows.
    + intros r Hr. apply in_flat_map in Hr. destruct Hr as [w [_ Hr]].
      unfold sweep_point in Hr.
      destruct (genre_rows_value w _ r (genre_fin_genres_NoDup _) Hr)
        as [Hw [Hv Hn]].
      cbv zeta. rewrite Hw. unfold sweep_point_table in Hv, Hn. split; assumption.
  - destruct (sweep_run content users fr windows h Hu) as [h' [E _]].
    eexists _, h'. split; [exact E|].
    assert (Hw : map window (flat_map (sweep_point content (frame_rows fr)) windows)
                 = [3; 3; 7; 7; 14; 14]).
    { unfold windows. cbn [flat_map].
      rewrite app_nil_r, !map_app, !sweep_point_windows. reflexivity. }
    split; [exact Hw|]. rewrite Hw.
    repeat (constructor; [|repeat constructor; lia]). constructor.
Qed.

Lemma C5_witness :
  exists out h',
    SensitivityAnalysis.main (SK := stable_kind) [S1; S2; S3] 0%nat
                             [mkFrame [U1; U2] true]
    = Some (out, h')
    /\ map window out = [3; 3; 7; 7; 14; 14]
    /\ StronglySorted Z.le (map window out).
Proof.
  apply (proj2 (C5_sweep_points_computed_from_original_ledger
                  stable_kind [S1; S2; S3] [mkFrame [U1; U2] true] 0%nat
                  (mkFrame [U1; U2] true) eq_refl)).
Defined.


(* ===================================================================== *)
(** ** Further properties of the attribution resolver *)
(* ===================================================================== *)

Lemma set_attributed_twice (u : UserRow) (a b : option string) :
  set_attributed (set_attributed u a) b = set_attributed u b.
Proof. reflexivity. Qed.

(** The resolver keeps the frame: the same rows in the same order, with
    every column other than [attributed_show_id] as it was. *)
Theorem assign_last_touch_keeps_other_columns :
  forall (SK : SortKind) (content : list ContentRow) (users : list UserRow) (w : Z),
    map (fun u => set_attributed u None) (assign_last_touch content users w)
    = map (fun u => set_attributed u None) users
    /\ List.length (assign_last_touch content users w) = List.length users
    /\ map user_id (assign_last_touch content users w) = map user_id users.
Proof.
  intros SK content users w. rewrite assign_last_touch_rows.
  destruct (merged content users w) as [|x m];
    rewrite ?length_map, !map_map; repeat split; apply map_ext; reflexivity.
Qed.

Lemma users_exp_assign {SK : SortKind} (content : list ContentRow)
      (users : list UserRow) (w : Z) :
  users_exp (assign_last_touch content users w) = users_exp users.
Proof.
  unfold users_exp. rewrite assign_last_touch_rows.
  destruct (merged content users w) as [|x m];
    rewrite map_map; apply map_ext; reflexivity.
Qed.

(** The early return: when no user has an eligible item the whole
    attribution column comes back empty, whatever it held. *)
Theorem assign_last_touch_without_any_match :
  forall (SK : SortKind) (content : list ContentRow) (users : list UserRow) (w : Z),
    (forall u c, In u users -> In c content -> eligible w u c = false) ->
    assign_last_touch content users w = map (fun u => set_attributed u None) users.
Proof.
  intros SK content users w H. apply merged_nil_iff in H.
  rewrite assign_last_touch_rows. now rewrite H.
Qed.

Lemma assign_last_touch_without_any_match_witness :
  assign_last_touch (SK := stable_kind) [S1; S2] [U2] 7
  = map (fun u => set_attributed u None) [U2].
Proof.
  apply (assign_last_touch_without_any_match stable_kind [S1; S2] [U2] 7).
  intros u c [<-|[]] [<-|[<-|[]]]; vm_compute; reflexivity.
Defined.

Lemma eligible_negative_window (w : Z) (u : UserRow) (c : ContentRow) :
  w < 0 -> eligible w u c = false.
Proof.
  unfold eligible, ts_ge, ts_le, ts_add, Timedelta_days, Calendar.NS_PER_DAY.
  intros Hw.
  destruct (sign_up_date u) as [s|], (release_date c) as [r|]; simpl;
    try reflexivity.
  apply andb_false_iff. rewrite !Z.leb_gt. lia.
Qed.

(** A negative window makes every item ineligible: the resolver returns the
    ledger with an empty attribution column. *)
Theorem assign_last_touch_negative_window :
  forall (SK : SortKind) (content : list ContentRow) (users : list UserRow) (w : Z),
    w < 0 ->
    assign_last_touch content users w = map (fun u => set_attributed u None) users.
Proof.
  intros SK content users w Hw.
  rewrite assign_last_touch_rows.
  replace (merged content users w) with (@nil MergedRow); [reflexivity|].
  symmetry. apply merged_nil_iff. intros u c _ _.
  now apply eligible_negative_window.
Qed.

Lemma assign_last_touch_negative_window_witness :
  assign_last_touch (SK := stable_kind) [S1] [U1] (-1)
  = map (fun u => set_attributed u None) [U1].
Proof.
  apply (assign_last_touch_negative_window stable_kind [S1] [U1] (-1)). lia.
Defined.

(** The resolver never invents an attribution: a show id in the result is
    either the one the user came with, or the id of a catalog item that is
    eligible for the user and released no earlier than any other eligible
    item. *)
Theorem assign_last_touch_attributes_only_eligible_items :
  forall (SK : SortKind) (content : list ContentRow) (users : list UserRow) (w : Z)
         (i : nat) (u r : UserRow) (s : string),
    NoDup (map user_id users) ->
    nth_error users i = Some u ->
    nth_error (assign_last_touch content users w) i = Some r ->
    attributed_show_id r = Some s ->
    attributed_show_id u = Some s
    \/ exists c,
         In c content /\ show_id c = s /\ eligible w u c = true
         /\ forall c', In c' content -> eligible w u c' = true ->
                       ts_le (release_date c') (release_date c) = true.
Proof.
  intros SK content users w i u r s Hnd Hu Hr Hs.
  assert (Hin : In u users) by (eapply nth_error_In; eassumption).
  rewrite assign_last_touch_rows in Hr.
  destruct (merged content users w) as [|x m] eqn:E.
  - rewrite nth_error_map, Hu in Hr. injection Hr as <-. discriminate.
  - rewrite <- E in Hr. rewrite nth_error_map, Hu in Hr. injection Hr as <-.
    unfold resolved in Hs. simpl in Hs.
    rewrite merged_eq, new_attribution_latest in Hs by assumption.
    destruct (last_opt (latest_eligible w u (sorted_catalog content)))
      as [c|] eqn:El; simpl in Hs.
    + right. injection Hs as <-. exists c.
      apply last_opt_In, filter_In in El. destruct El as [Hc Hp].
      apply andb_prop in Hp. destruct Hp as [He Hall].
      rewrite forallb_forall in Hall.
      apply (proj1 (sorted_catalog_In _ _)) in Hc.
      repeat split; try assumption.
      intros c' Hc' He'.
      specialize (Hall c' (proj2 (sorted_catalog_In _ _) Hc')).
      now rewrite He' in Hall.
    + now left.
Qed.

Lemma assign_last_touch_attributes_only_eligible_items_witness :
  attributed_show_id U1 = Some "S3"%string
  \/ exists c,
       In c [S1; S2; S3] /\ show_id c = "S3"%string /\ eligible 7 U1 c = true
       /\ forall c', In c' [S1; S2; S3] -> eligible 7 U1 c' = true ->
                     ts_le (release_date c') (release_date c) = true.
Proof.
  apply (assign_last_touch_attributes_only_eligible_items
           stable_kind [S1; S2; S3] [U2; U1] 7 1%nat U1
           (set_attributed U1 (Some "S3"%string)) "S3"%string).
  - repeat constructor; simpl; intuition discriminate.
  - reflexivity.
  - vm_compute. reflexivity.
  - reflexivity.
Defined.

Lemma merged_assign {SK : SortKind} (content : list ContentRow)
      (users : list UserRow) (w : Z) :
  merged content (assign_last_touch content users w) w = merged content users w.
Proof. unfold merged. now rewrite users_exp_assign. Qed.

(** Running the resolver again on its own output, with the same catalog and
    window, changes nothing. *)
Theorem assign_last_touch_idempotent :
  forall (SK : SortKind) (content : list ContentRow) (users : list UserRow) (w : Z),
    assign_last_touch content (assign_last_touch content users w) w
    = assign_last_touch content users w.
Proof.
  intros SK content users w.
  rewrite (assign_last_touch_rows content (assign_last_touch content users w)).
  rewrite merged_assign. rewrite assign_last_touch_rows.
  destruct (merged content users w) as [|x m].
  - rewrite map_map. apply map_ext. reflexivity.
  - rewrite map_map. apply map_ext. intros u. unfold resolved. simpl.
    destruct (new_attribution (x :: m) (user_id u)); reflexivity.
Qed.

Lemma filter_perm {A : Type} (p : A -> bool) (l l' : list A) :
  Permutation l l' -> Permutation (filter p l) (filter p l').
Proof.
  induction 1 as [|x l l' _ IH|x y l|l l' l'' _ IH1 _ IH2]; simpl.
  - constructor.
  - destruct (p x); [now constructor | exact IH].
  - destruct (p x), (p y); try apply Permutation_refl. apply perm_swap.
  - eapply perm_trans; eassumption.
Qed.

Lemma ts_le_antisym (a b : Timestamp) :
  ts_le a b = true -> ts_le b a = true -> a = b.
Proof.
  destruct a, b; simpl; try discriminate.
  rewrite !Z.leb_le. intros. f_equal. lia.
Qed.

Lemma NoDup_all_equal {A : Type} (l : list A) :
  NoDup l -> (forall x y, In x l -> In y l -> x = y) -> (List.length l <= 1)%nat.
Proof.
  intros Hnd H. destruct l as [|x [|y l]]; simpl; try lia.
  exfalso. apply NoDup_cons_iff in Hnd. destruct Hnd as [Hx _].
  apply Hx. rewrite (H x y); simpl; auto.
Qed.

(** With distinct release dates the latest eligible item is the same in
    every order of the catalog. *)
Lemma latest_eligible_perm (w : Z) (u : UserRow) (content content' : list ContentRow) :
  Permutation content content' ->
  NoDup (map release_date content) ->
  last_opt (latest_eligible w u content) = last_opt (latest_eligible w u content').
Proof.
  intros Hp Hnd.
  assert (E : latest_eligible w u content' = filter (latest_test w u content) content').
  { apply filter_ext. intros c. symmetry. now apply latest_test_perm. }
  rewrite E.
  change (latest_eligible w u content) with (filter (latest_test w u content) content).
  assert (Hperm := filter_perm (latest_test w u content) _ _ Hp).
  assert (Hlen : (List.length (filter (latest_test w u content) content) <= 1)%nat).
  { apply NoDup_all_equal.
    - apply NoDup_filter. eapply NoDup_map_inv. eassumption.
    - intros x y Hx Hy. apply filter_In in Hx, Hy.
      destruct Hx as [Hx Px], Hy as [Hy Py].
      apply (NoDup_map_eq release_date content); try assumption.
      apply ts_le_antisym; eapply latest_test_mutual; eassumption. }
  destruct (filter (latest_test w u content) content) as [|x [|y l]]; simpl in Hlen.
  - apply Permutation_nil in Hperm. now rewrite Hperm.
  - apply Permutation_length_1_inv in Hperm. now rewrite Hperm.
  - lia.
Qed.

(** When no two shows share a release date the resolver's result does not
    depend on the order of the catalog rows. *)
Theorem assign_last_touch_catalog_order_irrelevant :
  forall (SK : SortKind) (content content' : list ContentRow)
         (users : list UserRow) (w : Z),
    Permutation content content' ->
    NoDup (map release_date content) ->
    NoDup (map user_id users) ->
    assign_last_touch content users w = assign_last_touch content' users w.
Proof.
  intros SK content content' users w Hp Hrel Hnd.
  rewrite !assign_last_touch_rows.
  destruct (merged content users w) as [|x m] eqn:E;
    destruct (merged content' users w) as [|x' m'] eqn:E'.
  - reflexivity.
  - exfalso. rewrite merged_nil_iff in E.
    assert (Hx : In x' (merged content' users w)) by (rewrite E'; now left).
    apply merged_In in Hx. destruct Hx as [u [c [Hu [Hc [He _]]]]].
    rewrite (E u c Hu) in He; [discriminate|].
    eapply Permutation_in; [apply Permutation_sym|]; eassumption.
  - exfalso. rewrite merged_nil_iff in E'.
    assert (Hx : In x (merged content users w)) by (rewrite E; now left).
    apply merged_In in Hx. destruct Hx as [u [c [Hu [Hc [He _]]]]].
    rewrite (E' u c Hu) in He; [discriminate|].
    eapply Permutation_in; eassumption.
  - rewrite <- E, <- E'. apply map_ext_in. intros u Hu. unfold resolved.
    rewrite !merged_eq, !new_attribution_latest by assumption.
    rewrite (latest_eligible_perm w u (sorted_catalog content)
                                  (sorted_catalog content')).
    + reflexivity.
    + eapply perm_trans; [apply sorted_catalog_perm|].
      eapply perm_trans; [exact Hp|]. apply Permutation_sym, sorted_catalog_perm.
    + eapply Permutation_NoDup; [|exact Hrel].
      apply Permutation_map, Permutation_sym, sorted_catalog_perm.
Qed.

Lemma assign_last_touch_catalog_order_irrelevant_witness :
  assign_last_touch (SK := stable_kind) [S1; S2] [U1; U2] 7
  = assign_last_touch (SK := stable_kind) [S2; S1] [U1; U2] 7.
Proof.
  apply (assign_last_touch_catalog_order_irrelevant
           stable_kind [S1; S2] [S2; S1] [U1; U2] 7).
  - apply perm_swap.
  - repeat constructor; simpl; intuition discriminate.
  - repeat constructor; simpl; intuition discriminate.
Defined.

(** On frame objects.  With no match at all the resolver overwrites the
    attribution column of the frame it was handed and returns that same
    frame.  With a match it returns a new frame; its argument keeps its rows
    and, if it had no attribution column, gains one in place, empty. *)
Theorem assign_last_touch_obj_aliasing :
  forall (SK : SortKind) (content : list ContentRow) (r : Store.ref) (w : Z)
         (h : Store.heap) (fr : Frame),
    nth_error h r = Some fr ->
    ((forall u c, In u (frame_rows fr) -> In c content -> eligible w u c = false) ->
     assign_last_touch_obj content r w h
     = Some (r, Store.update r
                  (mkFrame (map (fun u => set_attributed u None) (frame_rows fr)) true)
                  h))
    /\ ((exists u c, In u (frame_rows fr) /\ In c content /\ eligible w u c = true) ->
        assign_last_touch_obj content r w h
        = Some (List.length h,
                (if fr_has_attributed fr then h
                 else Store.update r (mkFrame (frame_rows fr) true) h)
                ++ [mkFrame (assign_last_touch content (frame_rows fr) w) true])).
Proof.
  intros SK content r w h fr Hr. split.
  - intros H. apply merged_nil_iff in H.
    now apply assign_last_touch_obj_no_match.
  - intros [u [c [Hu [Hc He]]]].
    apply (assign_last_touch_obj_match content r w h fr Hr).
    eapply merged_nonempty; eassumption.
Qed.

Lemma assign_last_touch_obj_aliasing_witness :
  assign_last_touch_obj (SK := stable_kind) [S1] 0%nat 7 [mkFrame [U1] false]
  = Some (1%nat,
          [mkFrame [U1] true]
          ++ [mkFrame (assign_last_touch (SK := stable_kind) [S1] [U1] 7) true]).
Proof.
  apply (proj2 (assign_last_touch_obj_aliasing
                  stable_kind [S1] 0%nat 7 [mkFrame [U1] false]
                  (mkFrame [U1] false) eq_refl)).
  exists U1, S1.
  split; [simpl; tauto|]. split; [simpl; tauto|]. vm_compute. reflexivity.
Defined.

(* ===================================================================== *)
(** ** Further properties of the LTV calculator *)
(* ===================================================================== *)

(** A user with a missing date gets the floor: one month of lifetime and
    one month of revenue as LTV. *)
Theorem compute_ltv_missing_date :
  forall (users : list UserRow) (i : nat) (u : UserRow),
    nth_error users i = Some u ->
    sign_up_date u = None \/ last_active_date u = None ->
    exists r,
      nth_error (compute_ltv users) i = Some r
      /\ lifetime_months r = 1
      /\ (ltv r == monthly_revenue u)%Q.
Proof.
  intros users i u Hi Hd. unfold compute_ltv.
  rewrite nth_error_map, Hi. simpl. eexists. split; [reflexivity|]. simpl.
  assert (E : month_diff u = None).
  { unfold month_diff. destruct Hd as [-> | ->]; [|reflexivity].
    now destruct (last_active_date u). }
  rewrite E. simpl. split; [reflexivity|]. apply Qmult_1_r.
Qed.

Lemma compute_ltv_missing_date_witness :
  exists r,
    nth_error (compute_ltv [mkUser "N" (date 2024 1 1) None 12 None]) 0 = Some r
    /\ lifetime_months r = 1
    /\ (ltv r == 12)%Q.
Proof.
  apply (compute_ltv_missing_date
           [mkUser "N" (date 2024 1 1) None 12 None] 0%nat
           (mkUser "N" (date 2024 1 1) None 12 None)).
  - reflexivity.
  - right. reflexivity.
Defined.

(** The lifetime and the LTV of a user do not depend on the attribution:
    resolving with any catalog and window leaves both columns as they are
    on the raw ledger. *)
Theorem compute_ltv_independent_of_attribution :
  forall (SK : SortKind) (content : list ContentRow) (users : list UserRow) (w : Z),
    map (fun r => (lifetime_months r, ltv r))
        (compute_ltv (assign_last_touch content users w))
    = map (fun r => (lifetime_months r, ltv r)) (compute_ltv users).
Proof.
  intros SK content users w. unfold compute_ltv. rewrite !map_map. simpl.
  rewrite assign_last_touch_rows.
  destruct (merged content users w) as [|x m];
    rewrite map_map; apply map_ext; reflexivity.
Qed.

(* ===================================================================== *)
(** ** Joins on a unique key, groups as a partition, and sums *)
(* ===================================================================== *)

Section JoinFacts.
Context {A B : Type}.
Variable lkey : A -> option string.
Variable rkey : B -> string.

(** The right row a left row is joined with, when right keys are unique. *)
Definition lookup_right (right : list B) (a : A) : option B :=
  match lkey a with
  | Some k => find (fun b => String.eqb k (rkey b)) right
  | None => None
  end.

Lemma filter_unique_key (right : list B) (k : string) :
  NoDup (map rkey right) ->
  filter (fun b => String.eqb k (rkey b)) right
  = match find (fun b => String.eqb k (rkey b)) right with
    | Some b => [b]
    | None => []
    end.
Proof.
  induction right as [|b right IH]; simpl; intros Hnd; [reflexivity|].
  apply NoDup_cons_iff in Hnd. destruct Hnd as [Hb Hnd].
  destruct (String.eqb_spec k (rkey b)) as [E|E].
  - f_equal. apply filter_nil_iff. intros b' Hb'.
    destruct (String.eqb_spec k (rkey b')) as [E'|]; [|reflexivity].
    exfalso. apply Hb. rewrite <- E, E'. now apply in_map.
  - now apply IH.
Qed.

Lemma filter_none (l : list B) : filter (fun _ => false) l = [].
Proof. induction l; simpl; auto. Qed.

(** With unique right keys a left join yields one row per left row. *)
Lemma merge_left_unique (left : list A) (right : list B) :
  NoDup (map rkey right) ->
  merge_left lkey rkey left right = map (fun a => (a, lookup_right right a)) left.
Proof.
  intros Hnd. unfold merge_left. apply flat_map_singleton.
  intros a _. unfold lookup_right. destruct (lkey a) as [k|].
  - rewrite filter_unique_key by assumption.
    destruct (find _ right); reflexivity.
  - now rewrite filter_none.
Qed.

End JoinFacts.

Lemma flat_map_map {A B C : Type} (f : A -> B) (g : B -> list C) (l : list A) :
  flat_map g (map f l) = flat_map (fun x => g (f x)) l.
Proof. induction l as [|x l IH]; simpl; [reflexivity | now rewrite IH]. Qed.

Section PartitionFacts.
Context {A : Type}.
Variable key : A -> option string.

Lemma groups_partition (rows : list A) (ks : list string) :
  NoDup ks ->
  (forall r k, In r rows -> key r = Some k -> In k ks) ->
  Permutation (flat_map (fun k => filter (fun r => key_is k (key r)) rows) ks)
              (filter (has_key key) rows).
Proof.
  intros Hnd. induction rows as [|r rows IH]; intros Hks.
  - simpl. clear. induction ks; simpl; auto.
  - assert (IH' := IH (fun r0 k H => Hks r0 k (or_intror H))). clear IH.
    simpl. unfold has_key at 1. destruct (key r) as [k0|] eqn:Er.
    + assert (Hin : In k0 ks) by (apply (Hks r); [now left | exact Er]).
      apply in_split in Hin. destruct Hin as [ks1 [ks2 ->]].
      apply NoDup_remove_2 in Hnd.
      assert (Hoff : forall ks', ~ In k0 ks' ->
                flat_map (fun k => if key_is k (Some k0)
                                   then r :: filter (fun r => key_is k (key r)) rows
                                   else filter (fun r => key_is k (key r)) rows) ks'
                = flat_map (fun k => filter (fun r => key_is k (key r)) rows) ks').
      { induction ks' as [|k ks' IHk]; intros Hn; [reflexivity|].
        cbn [flat_map]. rewrite IHk by (intros H; apply Hn; now right).
        destruct (key_is k (Some k0)) eqn:Ek; [|reflexivity].
        simpl in Ek. apply String.eqb_eq in Ek.
        exfalso. apply Hn. now left. }
      rewrite flat_map_app in *. simpl in *.
      rewrite String.eqb_refl.
      rewrite !Hoff by (intros H; apply Hnd, in_or_app; auto).
      simpl. eapply perm_trans; [apply Permutation_sym, Permutation_middle|].
      now apply perm_skip.
    + exact IH'.
Qed.

(** The groups of [groupby] are a partition of the rows with a key. *)
Lemma groupby_partition (rows : list A) :
  Permutation (flat_map snd (groupby key rows)) (filter (has_key key) rows).
Proof.
  unfold groupby. rewrite flat_map_map. simpl.
  apply groups_partition.
  - apply group_keys_NoDup.
  - intros r k Hr Hk. apply group_keys_In. rewrite <- Hk. now apply in_map.
Qed.

End PartitionFacts.

Section SumFacts.

Lemma fold_Zplus (xs : list Z) (a : Z) : fold_left Z.add xs a = a + Zsum xs.
Proof.
  unfold Zsum. revert a. induction xs as [|x xs IH]; intros a; simpl.
  - lia.
  - rewrite IH, (IH x). lia.
Qed.

Lemma Zsum_cons (x : Z) (xs : list Z) : Zsum (x :: xs) = x + Zsum xs.
Proof. unfold Zsum at 1. simpl. rewrite fold_Zplus. lia. Qed.

Lemma Zsum_app (xs ys : list Z) : Zsum (xs ++ ys) = Zsum xs + Zsum ys.
Proof.
  induction xs as [|x xs IH]; simpl; [reflexivity|].
  rewrite !Zsum_cons, IH. lia.
Qed.

Lemma Zsum_perm (xs ys : list Z) : Permutation xs ys -> Zsum xs = Zsum ys.
Proof.
  induction 1 as [|x xs ys _ IH|x y xs|xs ys zs _ IH1 _ IH2].
  - reflexivity.
  - now rewrite !Zsum_cons, IH.
  - rewrite !Zsum_cons. lia.
  - now rewrite IH1.
Qed.

Lemma Zsum_flat_map {A B : Type} (f : B -> Z) (g : A -> list B) (l : list A) :
  Zsum (map (fun a => Zsum (map f (g a))) l) = Zsum (map f (flat_map g l)).
Proof.
  induction l as [|a l IH]; simpl; [reflexivity|].
  now rewrite Zsum_cons, map_app, Zsum_app, IH.
Qed.

Lemma Zsum_ones {A : Type} (l : list A) :
  Zsum (map (fun _ => 1) l) = Z.of_nat (List.length l).
Proof.
  induction l as [|a l IH]; [reflexivity|].
  simpl map. rewrite Zsum_cons, IH. simpl List.length. lia.
Qed.

End SumFacts.

(* ===================================================================== *)
(** ** Conservation of users through the roll-ups *)
(* ===================================================================== *)

(** A user row that carries an attribution. *)
Definition attributed (r : LtvRow) : bool :=
  match attributed_show_id (lr_user r) with
  | Some _ => true
  | None => false
  end.

Lemma enriched_unique (users : list LtvRow) (content : list ContentRow) :
  NoDup (map show_id content) ->
  enriched users content
  = map (fun a => (a, lookup_right (fun r => attributed_show_id (lr_user r))
                                   show_id content a)) users.
Proof. intros H. unfold enriched. now apply merge_left_unique. Qed.

(** With unique show ids the join with the catalog neither drops nor
    repeats a user: [enriched] holds the user rows, in order, once each. *)
Theorem enriched_one_row_per_user :
  forall (users : list LtvRow) (content : list ContentRow),
    NoDup (map show_id content) ->
    map fst (enriched users content) = users.
Proof.
  intros users content H. rewrite enriched_unique by assumption.
  rewrite map_map. simpl. apply map_id.
Qed.

Lemma enriched_one_row_per_user_witness :
  map fst (enriched (compute_ltv [U1; U2; U_x]) [S1; S2; S3])
  = compute_ltv [U1; U2; U_x].
Proof.
  apply (enriched_one_row_per_user (compute_ltv [U1; U2; U_x]) [S1; S2; S3]).
  repeat constructor; simpl; intuition discriminate.
Defined.

Lemma show_rev_revs (users : list LtvRow) (content : list ContentRow) :
  NoDup (map show_id content) ->
  map sf_rev (show_rev users content) = show_rev_groups (enriched users content).
Proof.
  intros H. unfold show_rev. rewrite merge_left_unique by assumption.
  rewrite !map_map. simpl. apply map_id.
Qed.

Lemma enriched_keyed_rows (users : list LtvRow) (content : list ContentRow) :
  NoDup (map show_id content) ->
  map fst (filter (has_key (fun r : LtvRow * option ContentRow =>
                              attributed_show_id (lr_user (fst r))))
                  (enriched users content))
  = filter attributed users.
Proof.
  intros H. rewrite enriched_unique by assumption.
  rewrite filter_map_swap, map_map. simpl. rewrite map_id.
  apply filter_ext. intros a. reflexivity.
Qed.

(** Every attributed user is counted once at show level: with unique show
    ids the user counts of [show_rev] add up to the number of users that
    carry an attribution, whether or not the catalog knows the show. *)
Theorem show_rev_counts_every_attributed_user :
  forall (users : list LtvRow) (content : list ContentRow),
    NoDup (map show_id content) ->
    Zsum (map (fun r => attributed_users (sf_rev r)) (show_rev users content))
    = Z.of_nat (List.length (filter attributed users)).
Proof.
  intros users content H.
  rewrite <- (map_map sf_rev attributed_users), show_rev_revs by assumption.
  unfold show_rev_groups. rewrite map_map. simpl.
  rewrite (map_ext _ (fun g => Zsum (map (fun _ => 1) (snd g))))
    by (intros g; now rewrite Zsum_ones).
  rewrite (Zsum_flat_map (fun _ => 1) snd), Zsum_ones.
  rewrite (Permutation_length (groupby_partition _ _)).
  rewrite <- (enriched_keyed_rows users content H). now rewrite length_map.
Qed.

Lemma show_rev_counts_every_attributed_user_witness :
  Zsum (map (fun r => attributed_users (sf_rev r))
            (show_rev (compute_ltv [U0; U2; U_x; U1]) [S1; S2; S3]))
  = Z.of_nat (List.length (filter attributed (compute_ltv [U0; U2; U_x; U1]))).
Proof.
  apply (show_rev_counts_every_attributed_user
           (compute_ltv [U0; U2; U_x; U1]) [S1; S2; S3]).
  repeat constructor; simpl; intuition discriminate.
Defined.

(** The genre table counts the users of the show rows that matched the
    catalog: users of unmatched shows are in no genre, and no user is lost
    or counted twice. *)
Theorem genre_fin_counts_users_of_matched_shows :
  forall sr : list ShowFin,
    Zsum (map total_attributed_users (genre_fin sr))
    = Zsum (map (fun r => attributed_users (sf_rev r)) (filter matched sr)).
Proof.
  intros sr. unfold genre_fin. rewrite !map_map. simpl.
  assert (E : filter (has_key (fun r => joined_genre (sf_content r))) sr
              = filter matched sr).
  { apply filter_ext. intros r. unfold has_key, matched.
    now destruct (sf_content r). }
  rewrite (Zsum_flat_map (fun r => attributed_users (sf_rev r)) snd).
  apply Zsum_perm. rewrite <- E. apply Permutation_map, groupby_partition.
Qed.

(* ===================================================================== *)
(** ** The ratios away from zero *)
(* ===================================================================== *)


(** The ledger of the end-to-end example once resolved. *)
Definition U1_attributed : UserRow := set_attributed U1 (Some "S1"%string).

(** The show row of the end-to-end example. *)
Definition S1_show_row : ShowFin :=
  {| sf_rev := {| sr_attributed_show_id := "S1";
                  attributed_users := 1;
                  total_revenue := 10 |};
     sf_content := Some S1;
     roi := Fin (- 990 # 1000) |}.


Lemma groupby_In {A : Type} (key : A -> option string) (rows : list A)
      (g : string * list A) :
  In g (groupby key rows) ->
  snd g = filter (fun r => key_is (fst g) (key r)) rows
  /\ exists r, In r (snd g) /\ key r = Some (fst g).
Proof.
  unfold groupby. rewrite in_map_iff. intros [k [<- Hk]]. simpl.
  split; [reflexivity|].
  apply group_keys_In, in_map_iff in Hk. destruct Hk as [r [Hr Hin]].
  exists r. split; [|exact Hr]. apply filter_In. split; [exact Hin|].
  rewrite Hr. simpl. apply String.eqb_refl.
Qed.

Lemma key_is_eq (k : string) (o : option string) :
  key_is k o = true <-> o = Some k.
Proof.
  destruct o as [k'|]; simpl; [|split; discriminate].
  rewrite String.eqb_eq. split; congruence.
Qed.

Lemma fold_fadd_Fin (qs : list Q) (a : Q) :
  fold_left fadd (map Fin qs) (Fin a) = Fin (fold_left Qplus qs a).
Proof.
  revert a. induction qs as [|q qs IH]; intros a; simpl; [reflexivity|]. apply IH.
Qed.

Lemma fsum_Fin (qs : list Q) : fsum (map Fin qs) = Fin (Qsum qs).
Proof.
  unfold fsum, Qsum. rewrite <- fold_fadd_Fin. f_equal.
  induction qs as [|q qs IH]; simpl; [reflexivity | now rewrite IH].
Qed.

(** The production cost of a matched show row. *)
Definition cost_of (r : ShowFin) : Q :=
  match sf_content r with
  | Some c => production_cost c
  | None => 0
  end.

Lemma genre_fin_In (sr : list ShowFin) (g : GenreFin) :
  In g (genre_fin sr) ->
  exists grp,
    In (gf_genre g, grp) (groupby (fun r => joined_genre (sf_content r)) sr)
    /\ gf_total_revenue g = Qsum (map (fun r => total_revenue (sf_rev r)) grp)
    /\ total_prod_cost g = Fin (Qsum (map cost_of grp))
    /\ total_attributed_users g = Zsum (map (fun r => attributed_users (sf_rev r)) grp).
Proof.
  unfold genre_fin. rewrite in_map_iff. intros [[k grp] [<- Hin]]. simpl.
  exists grp. split; [exact Hin|]. split; [reflexivity|]. split; [|reflexivity].
  rewrite <- fsum_Fin, map_map. f_equal. apply map_ext_in. intros r Hr.
  destruct (groupby_In _ _ _ Hin) as [E _]. simpl in E. rewrite E in Hr.
  apply filter_In in Hr. destruct Hr as [_ Hk]. apply key_is_eq in Hk.
  unfold sf_production_cost, cost_of. now destruct (sf_content r).
Qed.

Lemma merge_left_In {A B : Type} (lkey : A -> option string) (rkey : B -> string)
      (left : list A) (right : list B) (a : A) (b : B) :
  In (a, Some b) (merge_left lkey rkey left right) ->
  In a left /\ In b right /\ lkey a = Some (rkey b).
Proof.
  unfold merge_left. rewrite in_flat_map. intros [a' [Ha' H]].
  destruct (filter _ right) as [|b0 ms] eqn:E.
  - destruct H as [[=]|[]].
  - rewrite <- E in H. apply in_map_iff in H.
    destruct H as [b' [[= -> ->] Hb]]. apply filter_In in Hb.
    destruct Hb as [Hb Hk]. split; [exact Ha'|]. split; [exact Hb|].
    destruct (lkey a) as [k|]; [|discriminate].
    apply String.eqb_eq in Hk. now rewrite Hk.
Qed.

Lemma merge_left_In_left {A B : Type} (lkey : A -> option string)
      (rkey : B -> string) (left : list A) (right : list B) (x : A * option B) :
  In x (merge_left lkey rkey left right) -> In (fst x) left.
Proof.
  unfold merge_left. rewrite in_flat_map. intros [a [Ha H]].
  destruct (filter _ right) as [|b0 ms].
  - destruct H as [<-|[]]. exact Ha.
  - apply in_map_iff in H. destruct H as [b [<- _]]. exact Ha.
Qed.

Lemma Zsum_at_least_one (l : list Z) :
  l <> [] -> (forall x, In x l -> 1 <= x) -> 1 <= Zsum l.
Proof.
  induction l as [|x l IH]; [congruence|]. intros _ H.
  rewrite Zsum_cons. assert (1 <= x) by (apply H; now left).
  destruct l as [|y l]; [unfold Zsum; simpl; lia|].
  assert (1 <= Zsum (y :: l)).
  { apply IH; [discriminate|]. intros z Hz. apply H. now right. }
  lia.
Qed.

Lemma show_rev_row_has_users (users : list LtvRow) (content : list ContentRow)
      (r : ShowFin) :
  In r (show_rev users content) -> 1 <= attributed_users (sf_rev r).
Proof.
  unfold show_rev. rewrite in_map_iff. intros [x [<- Hx]]. simpl.
  apply merge_left_In_left in Hx. unfold show_rev_groups in Hx.
  apply in_map_iff in Hx. destruct Hx as [g [<- Hg]]. simpl.
  destruct (groupby_In _ _ _ Hg) as [_ [y [Hy _]]].
  destruct (snd g); [destruct Hy|]. simpl List.length. lia.
Qed.

Lemma genre_fin_group_rows (sr : list ShowFin) (g : GenreFin) (grp : list ShowFin) :
  In (gf_genre g, grp) (groupby (fun r => joined_genre (sf_content r)) sr) ->
  grp <> []
  /\ forall r, In r grp ->
               In r sr /\ exists c, sf_content r = Some c /\ genre c = gf_genre g.
Proof.
  intros Hin. destruct (groupby_In _ _ _ Hin) as [E [r0 [Hr0 _]]]. simpl in *.
  split; [destruct grp; [destruct Hr0 | discriminate]|].
  intros r Hr. rewrite E in Hr. apply filter_In in Hr. destruct Hr as [Hr Hk].
  split; [exact Hr|]. apply key_is_eq in Hk.
  destruct (sf_content r) as [c|]; [|discriminate].
  exists c. split; [reflexivity|]. simpl in Hk. congruence.
Qed.

Lemma show_rev_content_in_catalog (users : list LtvRow) (content : list ContentRow)
      (r : ShowFin) (c : ContentRow) :
  In r (show_rev users content) -> sf_content r = Some c -> In c content.
Proof.
  unfold show_rev. rewrite in_map_iff. intros [[a ob] [<- Hx]]. simpl.
  intros ->. apply merge_left_In in Hx. tauto.
Qed.

Lemma genre_in_catalog (users : list LtvRow) (content : list ContentRow)
      (g : GenreFin) :
  In g (genre_fin (show_rev users content)) -> In (gf_genre g) (map genre content).
Proof.
  intros Hg. destruct (genre_fin_In _ g Hg) as [grp [Hin _]].
  destruct (genre_fin_group_rows _ _ _ Hin) as [Hne Hrows].
  destruct grp as [|r grp]; [congruence|].
  destruct (Hrows r (or_introl eq_refl)) as [Hr [c [Hc <-]]].
  apply in_map. eapply show_rev_content_in_catalog; eassumption.
Qed.

Lemma genre_has_users (users : list LtvRow) (content : list ContentRow)
      (g : GenreFin) :
  In g (genre_fin (show_rev users content)) -> 1 <= total_attributed_users g.
Proof.
  intros Hg. destruct (genre_fin_In _ g Hg) as [grp [Hin [_ [_ Hu]]]].
  destruct (genre_fin_group_rows _ _ _ Hin) as [Hne Hrows].
  rewrite Hu. apply Zsum_at_least_one.
  - destruct grp; [congruence | discriminate].
  - intros x Hx. apply in_map_iff in Hx. destruct Hx as [r [<- Hr]].
    eapply show_rev_row_has_users. apply Hrows. exact Hr.
Qed.

(** The genre table of [main] has one row per genre, only for genres of the
    catalog, and every row has at least one attributed user: on this path
    the zero-user guard of the ratios is never taken. *)
Theorem main_genre_rows :
  forall (content : list ContentRow) (users : list UserRow),
    NoDup (map gf_genre (snd (AnalysisAndPlots.main content users)))
    /\ forall g, In g (snd (AnalysisAndPlots.main content users)) ->
                 In (gf_genre g) (map genre content)
                 /\ 1 <= total_attributed_users g
                 /\ cac_per_user g <> NaN
                 /\ ltv_per_user g <> NaN.
Proof.
  intros content users. unfold AnalysisAndPlots.main. simpl. split.
  - unfold genre_fin. rewrite map_map. simpl.
    apply (groupby_keys_NoDup (fun r => joined_genre (sf_content r))).
  - intros g Hg.
    assert (Hone := genre_has_users _ _ _ Hg).
    split; [eapply genre_in_catalog; eassumption|]. split; [exact Hone|].
    destruct (genre_fin_In _ g Hg) as [grp [_ [_ [Hc _]]]].
    destruct (genre_fin_ratios _ g Hg) as [Hcac [Hl _]].
    rewrite Hcac, Hl, Hc. unfold replace_0_nan.
    destruct (Z.eqb_spec (total_attributed_users g) 0) as [E0|_]; [lia|].
    assert (Hn : ~ (inject_Z (total_attributed_users g) == 0)%Q).
    { unfold Qeq, inject_Z. simpl. lia. }
    rewrite !fdiv_by_nonzero by exact Hn. split; discriminate.
Qed.

Lemma main_genre_rows_witness :
  In (gf_genre (genre_row_of [S1_show_row])) (map genre [S1])
  /\ 1 <= total_attributed_users (genre_row_of [S1_show_row])
  /\ cac_per_user (genre_row_of [S1_show_row]) <> NaN
  /\ ltv_per_user (genre_row_of [S1_show_row]) <> NaN.
Proof.
  apply (proj2 (main_genre_rows [S1] [U1_attributed])).
  vm_compute. left. reflexivity.
Defined.

(* ===================================================================== *)
(** ** Further properties of the sensitivity sweep *)
(* ===================================================================== *)

Lemma genre_rows_missing (w : Z) (gf : list GenreFin) (r : SweepRow) :
  In r (genre_rows w gf) ->
  ~ In (sw_genre r) (map gf_genre gf) ->
  sw_ltv_to_cac r = NaN.
Proof.
  unfold genre_rows. intros Hr Hn. apply in_map_iff in Hr.
  destruct Hr as [k [<- _]].
  destruct (filter (fun r0 => String.eqb (gf_genre r0) k) gf) as [|val l] eqn:E;
    [reflexivity|].
  exfalso. apply Hn. simpl.
  assert (Hv : In val (filter (fun r0 => String.eqb (gf_genre r0) k) gf))
    by (rewrite E; now left).
  apply filter_In in Hv. destruct Hv as [Hv Hk].
  apply String.eqb_eq in Hk. rewrite <- Hk. now apply in_map.
Qed.

(** The sweep table has two rows per window, Sci-Fi then Comedy, in the
    order of the window list; and the ratio of a genre the catalog does not
    have is missing at every window. *)
Theorem sweep_table_layout :
  forall (SK : SortKind) (content : list ContentRow) (h : Store.heap)
         (users : Store.ref) (fr : Frame) (ws : list Z),
    nth_error h users = Some fr ->
    exists out h',
      sweep content users ws h = Some (out, h')
      /\ map (fun r => (window r, sw_genre r)) out
         = flat_map (fun w => [(w, "Sci-Fi"%string); (w, "Comedy"%string)]) ws
      /\ forall r, In r out ->
                   ~ In (sw_genre r) (map genre content) ->
                   sw_ltv_to_cac r = NaN.
Proof.
  intros SK content h users fr ws Hu.
  destruct (sweep_run content users fr ws h Hu) as [h' [E _]].
  eexists _, h'. split; [exact E|]. split.
  - apply sweep_points_rows.
  - intros r Hr Hn. apply in_flat_map in Hr. destruct Hr as [w [_ Hr]].
    unfold sweep_point in Hr. eapply genre_rows_missing; [exact Hr|].
    intros Hg. apply Hn. apply in_map_iff in Hg. destruct Hg as [g [<- Hg]].
    eapply genre_in_catalog. exact Hg.
Qed.

Lemma sweep_table_layout_witness :
  exists out h',
    sweep (SK := stable_kind) [S1; S2] 0%nat [3; 7] [mkFrame [U1] true]
    = Some (out, h')
    /\ map (fun r => (window r, sw_genre r)) out
       = flat_map (fun w => [(w, "Sci-Fi"%string); (w, "Comedy"%string)]) [3; 7]
    /\ forall r, In r out ->
                 ~ In (sw_genre r) (map genre [S1; S2]) ->
                 sw_ltv_to_cac r = NaN.
Proof.
  apply (sweep_table_layout stable_kind [S1; S2] [mkFrame [U1] true] 0%nat
                            (mkFrame [U1] true) [3; 7]).
  reflexivity.
Defined.

(* ===================================================================== *)
(** ** Descending sorts and the printed tables of [analysis_and_plots.py] *)
(* ===================================================================== *)

(** The ascending order of [sort_values] on a float column, on the cells
    that are not missing. *)
Definition fleb (x y : Float) : bool :=
  match x, y with
  | NInf, _ => true
  | _, PInf => true
  | Fin a, Fin b => Qle_bool a b
  | _, NaN => true
  | _, _ => false
  end.

Definition isnan (x : Float) : bool := negb (notnull x).

(** [DataFrame.sort_values(key, ascending=False)] on a float column. *)
Definition sort_values_desc {SK : SortKind} {A : Type} (key : A -> Float)
           (l : list A) : list A :=
  sort_values_by key fleb isnan false l.

(** [DataFrame.head(n)]. *)
Definition head {A : Type} (n : nat) (l : list A) : list A := firstn n l.

(** [Series.mean()] of a column without missing cells. *)
Definition fmean (xs : list Q) : Float :=
  match xs with
  | [] => NaN
  | _ => Fin (Qsum xs / inject_Z (Z.of_nat (List.length xs)))
  end.

Module AnalysisReport.

(** A row of [ltv_by_genre]. *)
Record GenreLtv : Type := mkGenreLtv {
  gl_genre : string;
  gl_attributed_users : Z;
  avg_ltv : Float;
  total_ltv : Q
}.

(** [enriched.groupby('genre').agg(...)] sorted by descending [avg_ltv]. *)
Definition ltv_by_genre {SK : SortKind} (e : list (LtvRow * option ContentRow))
  : list GenreLtv :=
  sort_values_desc avg_ltv
    (map (fun g =>
            {| gl_genre := fst g;
               gl_attributed_users := Z.of_nat (List.length (snd g));
               avg_ltv := fmean (map (fun r => ltv (fst r)) (snd g));
               total_ltv := Qsum (map (fun r => ltv (fst r)) (snd g)) |})
         (groupby (fun r => joined_genre (snd r)) e)).

(** The rows plotted: genres with at least 5 attributed users. *)
Definition plot_data (t : list GenreLtv) : list GenreLtv :=
  filter (fun r => 5 <=? gl_attributed_users r) t.

(** [show_rev.sort_values('roi', ascending=False).head(5)]. *)
Definition top_roi {SK : SortKind} (sr : list ShowFin) : list ShowFin :=
  head 5 (sort_values_desc roi sr).

(** [load_users]: the enriched file when it can be read, the base file
    otherwise.  Both files have an [attributed_show_id] column. *)
Definition load_users (user_attr_csv : option (list UserRow))
           (user_csv : list UserRow) : list UserRow :=
  match user_attr_csv with
  | Some users => users
  | None => user_csv
  end.

(** The dtype [read_csv] gives a column of ids: float64 when the file has
    rows and every cell of the column is empty, strings otherwise. *)
Definition float_column (cells : list (option string)) : bool :=
  match cells with
  | [] => false
  | _ => forallb (fun c => match c with None => true | Some _ => false end) cells
  end.

(** [merge] compares the dtypes of its two key columns, unless exactly one
    of the two frames has no rows; a float64 column on the left against the
    strings of [show_id] raises [ValueError]. *)
Definition merge_raises (left_float : bool) (left_rows right_rows : nat) : bool :=
  left_float && Bool.eqb (Nat.eqb left_rows 0) (Nat.eqb right_rows 0).

(** Everything [main] prints or plots. *)
Record Report : Type := mkReport {
  rp_ltv_by_genre : list GenreLtv;
  rp_top_roi : list ShowFin;
  rp_plot_data : list GenreLtv;
  rp_genre_fin : list GenreFin;
  rp_plot_gc : list GenreFin
}.

(** [main] on the files it reads; [None] when a merge raises. *)
Definition main {SK : SortKind} (content : list ContentRow)
           (user_attr_csv : option (list UserRow)) (user_csv : list UserRow)
  : option Report :=
  let users := load_users user_attr_csv user_csv in
  let float_ids := float_column (map attributed_show_id users) in
  let users := compute_ltv users in
  if merge_raises float_ids (List.length users) (List.length content) then None
  else
    let enriched := enriched users content in
    let ltv_by_genre := ltv_by_genre enriched in
    if merge_raises float_ids (List.length (show_rev_groups enriched))
                    (List.length content)
    then None
    else
      let show_rev := show_rev users content in
      let genre_fin := genre_fin show_rev in
      Some
        {| rp_ltv_by_genre := head 10 ltv_by_genre;
           rp_top_roi := top_roi show_rev;
           rp_plot_data := plot_data ltv_by_genre;
           rp_genre_fin :=
             filter (fun g => existsb (String.eqb (gf_genre g))
                                      ["Sci-Fi"; "Comedy"]%string)
                    genre_fin;
           rp_plot_gc :=
             filter (fun g => existsb (String.eqb (gf_genre g))
                                      ["Sci-Fi"; "Comedy"]%string)
                    genre_fin |}.

End AnalysisReport.

Import AnalysisReport.

(** The order of a descending sort: numbers from the largest down, missing
    cells last. *)
Definition desc_le (x y : Float) : bool :=
  match x, y with
  | _, NaN => true
  | NaN, _ => false
  | _, _ => fleb y x
  end.

Lemma Qle_bool_total (a b : Q) : Qle_bool a b = false -> Qle_bool b a = true.
Proof.
  intros H. apply Qle_bool_iff.
  destruct (Qlt_le_dec b a) as [Hlt|Hle].
  - now apply Qlt_le_weak.
  - apply Qle_bool_iff in Hle. congruence.
Qed.

Lemma Qle_bool_trans (a b c : Q) :
  Qle_bool a b = true -> Qle_bool b c = true -> Qle_bool a c = true.
Proof. rewrite !Qle_bool_iff. apply Qle_trans. Qed.

Lemma fleb_total (x y : Float) : fleb x y = false -> fleb y x = true.
Proof.
  destruct x, y; simpl; try congruence. apply Qle_bool_total.
Qed.

Lemma fleb_trans (x y z : Float) :
  fleb x y = true -> fleb y z = true -> fleb x z = true.
Proof.
  destruct x, y, z; simpl; try congruence. apply Qle_bool_trans.
Qed.

Section DescFacts.
Context {SK : SortKind}.
Context {A : Type}.
Variable key : A -> Float.

Lemma sort_values_desc_perm (l : list A) : Permutation (sort_values_desc key l) l.
Proof. apply sort_values_by_perm. Qed.

Lemma sort_values_desc_In (l : list A) (x : A) :
  In x (sort_values_desc key l) <-> In x l.
Proof. apply sort_values_by_In. Qed.

Lemma sort_values_desc_nil : sort_values_desc key [] = [].
Proof.
  apply Permutation_nil, Permutation_sym, sort_values_desc_perm.
Qed.

Lemma StronglySorted_app (R : A -> A -> Prop) (l1 l2 : list A) :
  StronglySorted R l1 -> StronglySorted R l2 ->
  (forall x y, In x l1 -> In y l2 -> R x y) ->
  StronglySorted R (l1 ++ l2).
Proof.
  induction 1 as [|x l1 Hs IH Hx]; simpl; intros H2 H; [exact H2|].
  constructor.
  - apply IH; [exact H2|]. intros a b Ha Hb. apply H; [now right | exact Hb].
  - apply Forall_app. split; [exact Hx|].
    apply Forall_forall. intros y Hy. apply H; [now left | exact Hy].
Qed.

Lemma StronglySorted_rev (R : A -> A -> Prop) (l : list A) :
  StronglySorted R l -> StronglySorted (fun x y => R y x) (rev l).
Proof.
  induction 1 as [|x l Hs IH Hx]; simpl; [constructor|].
  apply StronglySorted_app; [exact IH | repeat constructor|].
  intros a b Ha [<-|[]]. apply in_rev in Ha.
  rewrite Forall_forall in Hx. now apply Hx.
Qed.

Lemma StronglySorted_all (R : A -> A -> Prop) (l : list A) :
  (forall x y, In x l -> In y l -> R x y) -> StronglySorted R l.
Proof.
  induction l as [|x l IH]; intros H; constructor.
  - apply IH. intros a b Ha Hb. apply H; now right.
  - apply Forall_forall. intros y Hy. apply H; [now left | now right].
Qed.

(** A descending sort is sorted, whatever the algorithm: numbers from the
    largest down, then the rows with a missing key. *)
Lemma sort_values_desc_sorted (l : list A) :
  StronglySorted (fun x y => desc_le (key x) (key y) = true) (sort_values_desc key l).
Proof.
  unfold sort_values_desc, sort_values_by. apply StronglySorted_app.
  - set (nn := rev (filter (fun x => negb (isnan (key x))) l)).
    assert (Hs := argsort_sorted A Float key fleb nn fleb_total fleb_trans).
    apply StronglySorted_rev in Hs.
    eapply (Sorted.StronglySorted_ind
              (fun l' => (forall x, In x l' -> notnull (key x) = true) ->
                         StronglySorted (fun x y => desc_le (key x) (key y) = true) l'));
      [| |exact Hs|].
    + constructor.
    + intros a l' _ IH Ha Hnn. constructor.
      * apply IH. intros x Hx. apply Hnn. now right.
      * apply Forall_forall. intros y Hy. rewrite Forall_forall in Ha.
        specialize (Ha y Hy).
        assert (Hx := Hnn a (or_introl eq_refl)).
        assert (Hy' := Hnn y (or_intror Hy)).
        unfold desc_le. destruct (key a), (key y); try discriminate; exact Ha.
    + intros x Hx. apply in_rev in Hx.
      apply (Permutation_in _ (argsort_perm A Float key fleb nn)) in Hx.
      unfold nn in Hx. apply in_rev, filter_In in Hx. destruct Hx as [_ Hx].
      unfold isnan in Hx. now rewrite negb_involutive in Hx.
  - apply StronglySorted_all. intros x y _ Hy. apply filter_In in Hy.
    destruct Hy as [_ Hy]. unfold desc_le, isnan in *.
    destruct (key y); try discriminate. now destruct (key x).
  - intros x y _ Hy. apply filter_In in Hy. destruct Hy as [_ Hy].
    unfold desc_le, isnan in *.
    destruct (key y); try discriminate. now destruct (key x).
Qed.

Lemma firstn_In (n : nat) (l : list A) (x : A) : In x (firstn n l) -> In x l.
Proof.
  intros H. rewrite <- (firstn_skipn n l). apply in_or_app. now left.
Qed.

Lemma StronglySorted_firstn (R : A -> A -> Prop) (n : nat) (l : list A) :
  StronglySorted R l -> StronglySorted R (firstn n l).
Proof.
  intros Hs. revert n. induction Hs as [|x l Hs IH Hx]; intros [|n]; simpl;
    try constructor.
  - apply IH.
  - apply Forall_forall. intros y Hy. rewrite Forall_forall in Hx.
    apply Hx. eapply firstn_In. exact Hy.
Qed.

End DescFacts.

Lemma enriched_content_in_catalog (users : list LtvRow) (content : list ContentRow)
      (a : LtvRow) (c : ContentRow) :
  In (a, Some c) (enriched users content) -> In c content.
Proof. unfold enriched. intros H. apply merge_left_In in H. tauto. Qed.

(** The rows of the joined frame that carry genre [g]. *)
Definition genre_group (g : string) (e : list (LtvRow * option ContentRow))
  : list (LtvRow * option ContentRow) :=
  filter (fun x => key_is g (joined_genre (snd x))) e.

(** The per-genre LTV table has exactly one row for every genre that a
    joined user row carries, and no other row.  The row of a genre counts
    the joined rows of that genre (at least one), and its total and average
    are the sum and the mean of their LTV in frame order.  The rows are
    ordered from the highest average down, and the plotted rows are those
    with at least five users. *)
Theorem ltv_by_genre_rows :
  forall (SK : SortKind) (users : list LtvRow) (content : list ContentRow),
    let e := enriched users content in
    let t := ltv_by_genre e in
    NoDup (map gl_genre t)
    /\ StronglySorted (fun x y => desc_le (avg_ltv x) (avg_ltv y) = true) t
    /\ (forall x c, In x e -> snd x = Some c -> In (genre c) (map gl_genre t))
    /\ (forall r, In r t ->
          In (gl_genre r) (map genre content)
          /\ 1 <= gl_attributed_users r
          /\ gl_attributed_users r
             = Z.of_nat (List.length (genre_group (gl_genre r) e))
          /\ total_ltv r = Qsum (map (fun x => ltv (fst x)) (genre_group (gl_genre r) e))
          /\ avg_ltv r = fmean (map (fun x => ltv (fst x)) (genre_group (gl_genre r) e))
          /\ avg_ltv r <> NaN)
    /\ (forall r, In r (plot_data t) <-> In r t /\ 5 <= gl_attributed_users r).
Proof.
  intros SK users content e t. unfold t, ltv_by_genre.
  assert (Hkeys : Permutation
                    (map gl_genre
                       (sort_values_desc avg_ltv
                          (map (fun g =>
                                  {| gl_genre := fst g;
                                     gl_attributed_users := Z.of_nat (List.length (snd g));
                                     avg_ltv := fmean (map (fun r => ltv (fst r)) (snd g));
                                     total_ltv := Qsum (map (fun r => ltv (fst r)) (snd g)) |})
                               (groupby (fun r => joined_genre (snd r)) e))))
                    (map fst (groupby (fun r : LtvRow * option ContentRow =>
                                         joined_genre (snd r)) e))).
  { eapply perm_trans; [apply Permutation_map, sort_values_desc_perm|].
    rewrite map_map. simpl. apply Permutation_refl. }
  split; [|split; [apply sort_values_desc_sorted|split; [|split]]].
  - eapply Permutation_NoDup; [apply Permutation_sym, Hkeys|].
    apply (groupby_keys_NoDup (fun r : LtvRow * option ContentRow =>
                                 joined_genre (snd r))).
  - intros x c Hx Hc.
    eapply Permutation_in; [apply Permutation_sym, Hkeys|].
    unfold groupby. rewrite map_map. simpl. rewrite map_id.
    apply group_keys_In. apply in_map_iff. exists x. split; [|exact Hx].
    now rewrite Hc.
  - intros r Hr. apply sort_values_desc_In, in_map_iff in Hr.
    destruct Hr as [g [<- Hg]]. cbn [gl_genre gl_attributed_users avg_ltv total_ltv].
    destruct (groupby_In _ _ _ Hg) as [E [x [Hx Hk]]].
    fold (genre_group (fst g) e) in E. rewrite <- E.
    split; [|split; [|split; [|split; [|split]]]]; try reflexivity.
    + rewrite E in Hx. apply filter_In in Hx. destruct Hx as [Hx _].
      destruct x as [a [c|]]; [|discriminate]. simpl in Hk.
      injection Hk as <-. apply in_map.
      eapply enriched_content_in_catalog. exact Hx.
    + destruct (snd g); [destruct Hx|]. simpl List.length. lia.
    + destruct (snd g); [destruct Hx | discriminate].
  - intros r. unfold plot_data. rewrite filter_In, Z.leb_le. reflexivity.
Qed.

Lemma ltv_by_genre_rows_witness :
  In (genre S1)
     (map gl_genre
          (ltv_by_genre (SK := stable_kind)
                        (enriched (compute_ltv [U1_attributed]) [S1]))).
Proof.
  apply (proj1 (proj2 (proj2 (ltv_by_genre_rows stable_kind
                                                (compute_ltv [U1_attributed]) [S1])))
               ({| lr_user := U1_attributed; lifetime_months := 1; ltv := 10 |}, Some S1)
               S1).
  - vm_compute. left. reflexivity.
  - reflexivity.
Defined.

(** The top-5 table: at most five rows of the show table, all of them when
    it has no more, ordered from the highest ROI down with the rows of
    missing ROI (shows the catalog does not have) after every number. *)
Theorem top_roi_rows :
  forall (SK : SortKind) (sr : list ShowFin),
    List.length (top_roi sr) = Nat.min 5 (List.length sr)
    /\ (forall r, In r (top_roi sr) -> In r sr)
    /\ StronglySorted (fun x y => desc_le (roi x) (roi y) = true) (top_roi sr)
    /\ ((List.length sr <= 5)%nat -> Permutation (top_roi sr) sr).
Proof.
  intros SK sr. unfold top_roi, head.
  split; [|split; [|split]].
  - rewrite length_firstn.
    now rewrite (Permutation_length (sort_values_desc_perm roi sr)).
  - intros r Hr. apply firstn_In in Hr. now apply sort_values_desc_In in Hr.
  - apply StronglySorted_firstn, sort_values_desc_sorted.
  - intros Hl. rewrite firstn_all2.
    + apply sort_values_desc_perm.
    + now rewrite (Permutation_length (sort_values_desc_perm roi sr)).
Qed.

Lemma top_roi_rows_witness :
  Permutation (top_roi (SK := stable_kind) [S0_empty_row; S1_show_row; S0_show_row])
              [S0_empty_row; S1_show_row; S0_show_row].
Proof.
  apply (proj2 (proj2 (proj2 (top_roi_rows
                                stable_kind
                                [S0_empty_row; S1_show_row; S0_show_row])))).
  simpl. lia.
Defined.







(* ===================================================================== *)
(** ** [app.py] *)
(* ===================================================================== *)

Module App.

(** What the page shows: the three summary metrics and the table of top
    shows. *)
Record View : Type := mkView {
  v_attributed_users : Z;
  v_avg_ltv : Float;
  v_total_revenue : Q;
  v_top_shows : list (ShowRev * option ContentRow)
}.

(** The page computed from the attributed frame and the genre selected. *)
Definition view {SK : SortKind} (content : list ContentRow)
           (attributed : list UserRow) (genre : string) : View :=
  let attributed :=
    map (fun u =>
           let diff := fillna 0 (month_diff u) in
           let lifetime_months := Z.max 1 diff in
           {| lr_user := u;
              lifetime_months := lifetime_months;
              ltv := (monthly_revenue u * inject_Z lifetime_months)%Q |})
        attributed in
  let enriched :=
    merge_left (fun r => attributed_show_id (lr_user r)) show_id attributed content in
  let enriched :=
    if String.eqb genre "All" then enriched
    else filter (fun r => key_is genre (joined_genre (snd r))) enriched in
  let show_rev :=
    map (fun g =>
           {| sr_attributed_show_id := fst g;
              attributed_users := Z.of_nat (List.length (snd g));
              total_revenue := Qsum (map (fun r => ltv (fst r)) (snd g)) |})
        (groupby (fun r => attributed_show_id (lr_user (fst r))) enriched) in
  let show_rev :=
    merge_left (fun r => Some (sr_attributed_show_id r)) show_id show_rev content in
  {| v_attributed_users :=
       Z.of_nat (List.length
                   (nodup string_dec (map (fun r => user_id (lr_user (fst r))) enriched)));
     v_avg_ltv := fmean (map (fun r => ltv (fst r)) enriched);
     v_total_revenue := Qsum (map (fun r => ltv (fst r)) enriched);
     v_top_shows :=
       head 10 (sort_values_desc (fun r => Fin (total_revenue (fst r))) show_rev) |}.

(** The script on the cached ledger object: attribution runs on a copy. *)
Definition script {SK : SortKind} (content : list ContentRow) (users : Store.ref)
           (window : Z) (genre : string) : Store.M View :=
  copy <- Store.df_copy users ;;
  attributed <- assign_last_touch_obj content copy window ;;
  frame <- Store.df_read attributed ;;
  Store.ret (view content (frame_rows frame) genre).

End App.

Lemma script_run {SK : SortKind} (content : list ContentRow) (users : Store.ref)
      (w : Z) (genre : string) (h : Store.heap) (fr : Frame) :
  nth_error h users = Some fr ->
  exists h',
    App.script content users w genre h
    = Some (App.view content (assign_last_touch content (frame_rows fr) w) genre, h')
    /\ nth_error h' users = Some fr.
Proof.
  intros Hu.
  exact (resolve_copy_run (fun rows => App.view content rows genre)
                          content users w h fr Hu).
Qed.

Lemma merge_left_covers {A B : Type} (lkey : A -> option string)
      (rkey : B -> string) (left : list A) (right : list B) (a : A) :
  In a left -> exists ob, In (a, ob) (merge_left lkey rkey left right).
Proof.
  intros Ha. unfold merge_left.
  destruct (filter (fun b => match lkey a with
                             | Some k => String.eqb k (rkey b)
                             | None => false
                             end) right) as [|b ms] eqn:E.
  - exists None. apply in_flat_map. exists a. split; [exact Ha|].
    rewrite E. now left.
  - exists (Some b). apply in_flat_map. exists a. split; [exact Ha|].
    rewrite E. now left.
Qed.

Lemma nodup_length_same_elements (l1 l2 : list string) :
  (forall x, In x l1 <-> In x l2) ->
  List.length (nodup string_dec l1) = List.length (nodup string_dec l2).
Proof.
  intros H. apply Permutation_length, NoDup_Permutation; try apply NoDup_nodup.
  intros x. rewrite !nodup_In. apply H.
Qed.

Lemma assign_last_touch_user_ids {SK : SortKind} (content : list ContentRow)
      (users : list UserRow) (w : Z) :
  map user_id (assign_last_touch content users w) = map user_id users.
Proof.
  rewrite assign_last_touch_rows.
  destruct (merged content users w) as [|x m];
    rewrite map_map; apply map_ext; reflexivity.
Qed.

(** With the genre "All" the page covers the whole ledger, attributed or
    not: the "Attributed Users" metric is the number of distinct user ids
    of the ledger, and (with unique show ids) the total revenue is the LTV
    of all users.  The cached ledger object is left unchanged. *)
Theorem app_all_genres_counts_every_user :
  forall (SK : SortKind) (content : list ContentRow) (users : Store.ref) (w : Z)
         (h : Store.heap) (fr : Frame),
    nth_error h users = Some fr ->
    exists v h',
      App.script content users w "All" h = Some (v, h')
      /\ nth_error h' users = Some fr
      /\ App.v_attributed_users v
         = Z.of_nat (List.length (nodup string_dec (map user_id (frame_rows fr))))
      /\ (NoDup (map show_id content) ->
          (App.v_total_revenue v == Qsum (map ltv (compute_ltv (frame_rows fr))))%Q).
Proof.
  intros SK content users w h fr Hu.
  destruct (script_run content users w "All" h fr Hu) as [h' [E Hu']].
  set (rows := frame_rows fr) in *.
  eexists _, h'. split; [exact E|]. split; [exact Hu'|].
  unfold App.view. simpl.
  fold (compute_ltv (assign_last_touch content rows w)).
  set (att := compute_ltv (assign_last_touch content rows w)).
  fold (enriched att content). split.
  - f_equal. apply nodup_length_same_elements. intros x.
    rewrite <- (assign_last_touch_user_ids content rows w).
    rewrite !in_map_iff. split.
    + intros [[a ob] [<- Hin]]. simpl.
      apply merge_left_In_left in Hin. simpl in Hin.
      unfold att, compute_ltv in Hin. apply in_map_iff in Hin.
      destruct Hin as [u [<- Hin]]. exists u. now split.
    + intros [u [<- Hin]].
      set (a := {| lr_user := u;
                   lifetime_months := Z.max 1 (fillna 0 (month_diff u));
                   ltv := (monthly_revenue u
                           * inject_Z (Z.max 1 (fillna 0 (month_diff u))))%Q |}).
      assert (Ha : In a att).
      { unfold att, compute_ltv. apply in_map_iff. exists u. now split. }
      destruct (merge_left_covers (fun r => attributed_show_id (lr_user r))
                                  show_id att content a Ha) as [ob Hob].
      exists (a, ob). split; [reflexivity | exact Hob].
  - intros Hnd. rewrite enriched_unique by assumption. rewrite map_map. simpl.
    assert (El : map (fun r => (lifetime_months r, ltv r)) att
                 = map (fun r => (lifetime_months r, ltv r)) (compute_ltv rows)).
    { unfold att, compute_ltv. rewrite !map_map. simpl.
      rewrite assign_last_touch_rows.
      destruct (merged content rows w) as [|x m];
        rewrite map_map; apply map_ext; reflexivity. }
    apply (f_equal (map snd)) in El. rewrite !map_map in El. simpl in El.
    now rewrite El.
Qed.

Lemma app_all_genres_counts_every_user_witness :
  exists v h',
    App.script (SK := stable_kind) [S1; S2] 0%nat 7 "All" [mkFrame [U1; U2] true]
    = Some (v, h')
    /\ nth_error h' 0 = Some (mkFrame [U1; U2] true)
    /\ App.v_attributed_users v
       = Z.of_nat (List.length (nodup string_dec (map user_id [U1; U2])))
    /\ (NoDup (map show_id [S1; S2]) ->
        (App.v_total_revenue v == Qsum (map ltv (compute_ltv [U1; U2])))%Q).
Proof.
  apply (app_all_genres_counts_every_user
           stable_kind [S1; S2] 0%nat 7 [mkFrame [U1; U2] true]
           (mkFrame [U1; U2] true)).
  reflexivity.
Defined.

(** For a genre that no attributed show has, the page shows zero users, a
    missing average, zero revenue and an empty table of shows. *)
Theorem app_view_of_genre_without_users :
  forall (SK : SortKind) (content : list ContentRow) (attributed : list UserRow)
         (choice : string),
    choice <> "All"%string ->
    (forall u c, In u attributed -> In c content ->
                 attributed_show_id u = Some (show_id c) -> genre c <> choice) ->
    App.view content attributed choice = App.mkView 0 NaN 0 [].
Proof.
  intros SK content attributed g Hall Hno. unfold App.view.
  destruct (String.eqb_spec g "All") as [E|_]; [contradiction|].
  fold (compute_ltv attributed). fold (enriched (compute_ltv attributed) content).
  replace (filter _ (enriched (compute_ltv attributed) content))
    with (@nil (LtvRow * option ContentRow)).
  - simpl. now rewrite sort_values_desc_nil.
  - symmetry. apply filter_nil_iff. intros [a ob] Hin. simpl.
    destruct ob as [c|]; [|reflexivity]. simpl.
    destruct (String.eqb_spec g (genre c)) as [E|]; [|reflexivity].
    unfold enriched in Hin. apply merge_left_In in Hin.
    destruct Hin as [Ha [Hc Hk]].
    unfold compute_ltv in Ha. apply in_map_iff in Ha. destruct Ha as [u [<- Hu]].
    simpl in Hk. destruct (Hno u c Hu Hc Hk). now rewrite E.
Qed.

Lemma app_view_of_genre_without_users_witness :
  App.view (SK := stable_kind) [S1; S2] [U1_attributed] "Comedy"
  = App.mkView 0 NaN 0 [].
Proof.
  apply (app_view_of_genre_without_users
           stable_kind [S1; S2] [U1_attributed] "Comedy"%string).
  - discriminate.
  - intros u c [<-|[]] [<-|[<-|[]]]; simpl; intros H; discriminate.
Defined.

Lemma StronglySorted_impl {A : Type} (R R' : A -> A -> Prop) (l : list A) :
  (forall x y, R x y -> R' x y) -> StronglySorted R l -> StronglySorted R' l.
Proof.
  intros H. induction 1 as [|x l Hs IH Hx]; constructor; [exact IH|].
  eapply Forall_impl; [|exact Hx]. intros y. apply H.
Qed.

(** The table of top shows on the page: at most ten rows, each with at
    least one user, ordered from the highest attributed revenue down. *)
Theorem app_top_shows_rows :
  forall (SK : SortKind) (content : list ContentRow) (attributed : list UserRow)
         (choice : string),
    let top := App.v_top_shows (App.view content attributed choice) in
    (List.length top <= 10)%nat
    /\ StronglySorted
         (fun x y => (total_revenue (fst y) <= total_revenue (fst x))%Q) top
    /\ forall x, In x top -> 1 <= attributed_users (fst x).
Proof.
  intros SK content attributed choice top. unfold top, App.view.
  cbn [App.v_top_shows]. unfold head.
  split; [apply firstn_le_length|]. split.
  - apply StronglySorted_firstn.
    eapply StronglySorted_impl; [|apply sort_values_desc_sorted].
    intros x y H. cbn [desc_le fleb] in H. now apply Qle_bool_iff in H.
  - intros x Hx. apply firstn_In, sort_values_desc_In in Hx.
    apply merge_left_In_left, in_map_iff in Hx.
    destruct Hx as [g [<- Hg]]. simpl.
    destruct (groupby_In _ _ _ Hg) as [_ [y [Hy _]]].
    destruct (snd g); [destruct Hy|]. simpl List.length. lia.
Qed.

Lemma app_top_shows_rows_witness :
  1 <= attributed_users (fst (mkShowRev "S1" 1 10, Some S1)).
Proof.
  apply (proj2 (proj2 (app_top_shows_rows stable_kind [S1] [U1_attributed]
                                          "All"%string))).
  vm_compute. left. reflexivity.
Defined.
